(** * Cooperative cancellation in the go-cancel city service

    A shallow embedding of [server.go]: the error classifier
    [contextError], the buffered operation [citiesServer.List], the
    streaming operation [citiesServer.ListStream] and the HTTP handler
    [rest], followed by the properties of the cancellation-aware work
    loop.

    Modelling conventions.
    - A Go [error] value is [option error]; [None] is [nil].
    - A [context.Context] is what [ctx.Err()] answers as a function of
      the clock; [ctx.Done()] is closed exactly when that answer is not
      [nil].
    - The clock is virtual and counts milliseconds: [time.Sleep d]
      advances it by [d], every other statement is instantaneous.
    - Effects (polling the context, [rand.Intn], sleeping, [println],
      [stream.Send], logging, writing the HTTP response) are threaded
      through a state monad over [World] that also records each effect
      as an [Event], in program order. *)

From Stdlib Require Import ZArith List String Ascii Bool Lia.
Import ListNotations.

Local Open Scope string_scope.
Local Open Scope Z_scope.
Local Open Scope list_scope.

(** ** Errors and gRPC status *)

Module codes.
(** The members of [google.golang.org/grpc/codes] the server uses. *)
Inductive Code : Type :=
| Canceled
| Unknown
| DeadlineExceeded.

Definition number (c : Code) : Z :=
  match c with
  | Canceled => 1
  | Unknown => 2
  | DeadlineExceeded => 4
  end.

Definition String (c : Code) : string :=
  match c with
  | Canceled => "Canceled"
  | Unknown => "Unknown"
  | DeadlineExceeded => "DeadlineExceeded"
  end.
End codes.

(** The dynamic values an [error] interface holds in this program: the
    two sentinels of package [context], a gRPC status error, and a plain
    message error ([errors.New], [fmt.Errorf], or any foreign error). *)
Inductive error : Type :=
| context_Canceled
| context_DeadlineExceeded
| status_Error (c : codes.Code) (msg : string)
| errorString (msg : string).

(** [err.Error()] *)
Definition Error (e : error) : string :=
  match e with
  | context_Canceled => "context canceled"
  | context_DeadlineExceeded => "context deadline exceeded"
  | status_Error c msg =>
      ("rpc error: code = " ++ codes.String c ++ " desc = " ++ msg)%string
  | errorString msg => msg
  end.

(** [status.Errorf(c, format + "%v", err)] for a format whose only verb
    is the trailing [%v]. *)
Definition status_Errorf_v (c : codes.Code) (prefix : string) (e : error)
  : error :=
  status_Error c (prefix ++ Error e)%string.

(** [status.FromError(err)]: the status (code and message) and whether
    [err] was [nil] or a status error. *)
Definition status_FromError (err : option error)
  : option (codes.Code * string) * bool :=
  match err with
  | None => (None, true)
  | Some (status_Error c msg) => (Some (c, msg), true)
  | Some e => (Some (codes.Unknown, Error e), false)
  end.

(** [st.Message()]; the empty string on a [nil] status. *)
Definition status_Message (st : option (codes.Code * string)) : string :=
  match st with
  | Some (_, msg) => msg
  | None => ""
  end.

(** [fmt.Errorf(format)] without arguments, for a format that holds no
    [%] verb: the two messages of [contextError] are the only formats
    that reach it. *)
Definition fmt_Errorf (format : string) : error := errorString format.

(** ** Messages of [proto/cities.proto] *)

Record City : Type := { Id : Z; Name : string }.
Record Cities : Type := { Cities_City : list City }.
Record CityStream : Type := { CityStream_City : City }.
Inductive EmptyMessage : Type := Empty.

(** [uint32(i)] *)
Definition uint32 (i : Z) : Z := i mod 2 ^ 32.

(** ** Contexts, streams, requests *)

(** [ctx t] is the answer of [ctx.Err()] at clock [t]. *)
Definition Context : Type := Z -> option error.

(** A context never goes back: once done, it stays done with the same
    reason. *)
Definition irreversible (ctx : Context) : Prop :=
  forall t t' e, t <= t' -> ctx t = Some e -> ctx t' = Some e.

(** The two reasons package [context] names. *)
Definition named_reason (e : error) : bool :=
  match e with
  | context_Canceled | context_DeadlineExceeded => true
  | _ => false
  end.

(** The contract package [context] documents for [Err]: once [Done] is
    closed, [Err] answers [Canceled] or [DeadlineExceeded], and every
    later call answers the same error. The contexts that [net/http] and
    gRPC hand to a handler honour it. *)
Definition honours_contract (ctx : Context) : Prop :=
  irreversible ctx /\ forall t e, ctx t = Some e -> named_reason e = true.

(** [cities.CitiesService_ListStreamServer]: the stream's context and
    the outcome of [Send] for a message handed over at a given clock. *)
Record ListStreamServer : Type := {
  stream_Context : Context;
  stream_Send : Z -> CityStream -> option error
}.

(** What the handler reads of an [*http.Request]. *)
Record Request : Type := { Request_Context : Context }.

(** What the handler cannot decide of an [http.ResponseWriter]: whether
    [Write] fails. *)
Record ResponseWriter : Type := { writer_Write : string -> option error }.

(** ** Effects *)

Inductive printable : Type :=
| PInt (i : Z)
| PStr (s : string).

Inductive Event : Type :=
| EvErr (t : Z) (answer : option error)     (* ctx.Err() *)
| EvDone (t : Z) (closed : bool)            (* select on ctx.Done() *)
| EvIntn (n v : nat)                        (* rand.Intn(n) = v *)
| EvSleep (d : Z)                           (* time.Sleep(d) *)
| EvPrintln (v : printable)                 (* println(v) *)
| EvSend (t : Z) (m : CityStream) (r : option error)   (* stream.Send(m) *)
| EvLog (line : string)                     (* log.Println(...) *)
| EvHeaderSet (k v : string)                (* w.Header().Set(k, v) *)
| EvWriteHeader (code : Z)                  (* w.WriteHeader(code) *)
| EvWrite (data : string) (r : option error)           (* w.Write(data) *)
| EvPanic (msg : string).

(** The clock (milliseconds) and the global random source of
    [math/rand], as the stream of its future raw draws. *)
Record World : Type := { now : Z; rng : nat -> nat }.

Definition M (A : Type) : Type := World -> A * World * list Event.

Definition ret {A} (a : A) : M A := fun w => (a, w, []).

Definition bind {A B} (m : M A) (k : A -> M B) : M B :=
  fun w =>
    let '(a, w1, e1) := m w in
    let '(b, w2, e2) := k a w1 in
    (b, w2, e1 ++ e2).

Notation "x <- m ;; k" := (bind m (fun x => k))
  (at level 61, m at next level, right associativity).
Notation "m ;;; k" := (bind m (fun _ => k))
  (at level 61, right associativity).

Definition result {A} (r : A * World * list Event) : A := fst (fst r).
Definition world {A} (r : A * World * list Event) : World := snd (fst r).
Definition events {A} (r : A * World * list Event) : list Event := snd r.

Definition emit (e : Event) : M unit := fun w => (tt, w, [e]).

(** [ctx.Err()] *)
Definition ctx_Err (ctx : Context) : M (option error) :=
  fun w => (ctx (now w), w, [EvErr (now w) (ctx (now w))]).

(** [select { case <-ctx.Done(): ... default: }]: whether the channel is
    already closed. *)
Definition ctx_Done_closed (ctx : Context) : M bool :=
  fun w =>
    let closed := match ctx (now w) with Some _ => true | None => false end in
    (closed, w, [EvDone (now w) closed]).

Definition time_Millisecond : Z := 1.
Definition time_Second : Z := 1000 * time_Millisecond.

(** [time.Sleep(d)]; a duration that is not positive returns at once. *)
Definition time_Sleep (d : Z) : M unit :=
  fun w => (tt, {| now := now w + Z.max 0 d; rng := rng w |}, [EvSleep d]).

(** [rand.Intn(n)] for [n > 0]. *)
Definition rand_Intn (n : nat) : M nat :=
  fun w =>
    let v := (rng w 0 mod n)%nat in
    (v, {| now := now w; rng := fun k => rng w (S k) |}, [EvIntn n v]).

Definition println (v : printable) : M unit := emit (EvPrintln v).

Definition log_Println (line : string) : M unit := emit (EvLog line).

(** [stream.Send(m)] *)
Definition Send (stream : ListStreamServer) (m : CityStream)
  : M (option error) :=
  fun w =>
    let r := stream_Send stream (now w) m in
    (r, w, [EvSend (now w) m r]).

(** A [for] loop over [indices] that carries the loop's local
    state [acc]; the body either returns from the enclosing function
    ([inl]) or goes on to the next index ([inr]). *)
Fixpoint for_each {A R} (indices : list nat) (acc : A)
    (body : nat -> A -> M (R + A)) : M (R + A) :=
  match indices with
  | [] => ret (inr acc)
  | i :: rest =>
      r <- body i acc ;;
      match r with
      | inl x => ret (inl x)
      | inr acc' => for_each rest acc' body
      end
  end.

(** ** [randSeq] *)

Definition letters : list ascii :=
  list_ascii_of_string "abcdefghijklmnopqrstuvwxyz".

Definition in_range (lo hi c : ascii) : bool :=
  ((nat_of_ascii lo <=? nat_of_ascii c)
   && (nat_of_ascii c <=? nat_of_ascii hi))%nat.

(** [isSeparator] of package [strings], on ASCII: letters, digits and
    the underscore do not separate words. *)
Definition isSeparator (c : ascii) : bool :=
  negb (in_range "0" "9" c || in_range "a" "z" c || in_range "A" "Z" c
        || Ascii.eqb c "_").

Definition toTitle (c : ascii) : ascii :=
  if in_range "a" "z" c then ascii_of_nat (nat_of_ascii c - 32) else c.

Fixpoint title_from (prev : ascii) (s : list ascii) : list ascii :=
  match s with
  | [] => []
  | c :: rest =>
      (if isSeparator prev then toTitle c else c) :: title_from c rest
  end.

(** [strings.Title(s)] on ASCII: the first letter of every word in upper
    case. *)
Definition strings_Title (s : string) : string :=
  string_of_list_ascii (title_from " " (list_ascii_of_string s)).

(** The loop [for i := range b { b[i] = letters[rand.Intn(len(letters))] }]. *)
Fixpoint fill_runes (n : nat) : M (list ascii) :=
  match n with
  | O => ret []
  | S k =>
      v <- rand_Intn (List.length letters) ;;
      rest <- fill_runes k ;;
      ret (nth v letters "a"%char :: rest)
  end.

Definition randSeq (n : nat) : M string :=
  b <- fill_runes n ;;
  ret (strings_Title (string_of_list_ascii b)).

(** ** [contextError] *)

(** The [switch] of [contextError] on the value of [ctx.Err()]. *)
Definition contextError_switch (e : option error) : option error :=
  match e with
  | Some context_Canceled =>
      Some (status_Error codes.Canceled "request is canceled")
  | Some context_DeadlineExceeded =>
      Some (status_Error codes.DeadlineExceeded "deadline is exceeded")
  | _ => None
  end.

Definition contextError (ctx : Context) : M (option error) :=
  e <- ctx_Err ctx ;;
  ret (contextError_switch e).

(** ** The service *)

Module citiesServer.

(** One turn of the main loop of [List]; [lst] is the local [list]. *)
Definition List_body (ctx : Context) (i : nat) (lst : list City)
  : M ((option Cities * option error) + list City) :=
  err <- contextError ctx ;;
  match err with
  | Some e => ret (inl (None, Some e))
  | None =>
      name <- randSeq 10 ;;
      let lst := lst ++ [ {| Id := uint32 (Z.of_nat i); Name := name |} ] in
      time_Sleep (100 * time_Millisecond) ;;;
      println (PInt (Z.of_nat i)) ;;;
      ret (inr lst)
  end.

(** The part of [List] after its main loop. *)
Definition List_finish (ctx : Context)
    (r : (option Cities * option error) + list City)
  : M (option Cities * option error) :=
  match r with
  | inl res => ret res
  | inr lst =>
      err <- contextError ctx ;;
      match err with
      | Some e => ret (None, Some e)
      | None =>
          for_each (R := unit) (seq 1 9) tt
            (fun i _ => println (PInt (Z.of_nat i)) ;;; ret (inr tt)) ;;;
          ret (Some {| Cities_City := lst |}, None)
      end
  end.

(** Method [List] of [citiesServer]: the [Cities] message ([None] is
    the [nil] pointer) and the error.
    [N] is the number of turns of the main loop; the source fixes it
    with [for i := 1; i < 50; i++], that is [N = 49]. *)
Definition List (N : nat) (ctx : Context) (_ : EmptyMessage)
  : M (option Cities * option error) :=
  r <- for_each (seq 1 N) [] (List_body ctx) ;;
  List_finish ctx r.

(** One turn of the loop of [ListStream]. *)
Definition ListStream_body (stream : ListStreamServer) (i : nat) (_ : unit)
  : M (option error + unit) :=
  println (PInt (Z.of_nat i)) ;;;
  time_Sleep (1 * time_Second) ;;;
  name <- randSeq 10 ;;
  let res :=
    {| CityStream_City := {| Id := uint32 (Z.of_nat i); Name := name |} |} in
  err <- Send stream res ;;
  match err with
  | Some e =>
      ret (inl (Some (status_Errorf_v codes.Unknown
                        "cannot send stream response: " e)))
  | None => ret (inr tt)
  end.

(** Method [ListStream] of [citiesServer], with the same [N] as
    [List]. *)
Definition ListStream (N : nat) (_ : EmptyMessage)
    (stream : ListStreamServer) : M (option error) :=
  let ctx := stream_Context stream in
  closed <- ctx_Done_closed ctx ;;
  if closed then contextError ctx
  else
    r <- for_each (seq 1 N) tt (ListStream_body stream) ;;
    match r with
    | inl err => ret err
    | inr _ => println (PStr "tes") ;;; ret None
    end.

End citiesServer.

(** The loop bound of the source. *)
Definition N_source : nat := 49.

(** ** The HTTP handler *)

Definition http_StatusOK : Z := 200.
Definition http_StatusInternalServerError : Z := 500.

Section Rest.

(** [json.Marshal] on a slice of [*cities.City]; the generated message
    type that fixes the encoding is not part of the sources. *)
Variable json_Marshal : list City -> string * option error.

Definition rest (N : nat) (w : ResponseWriter) (r : Request) : M unit :=
  res <- citiesServer.List N (Request_Context r) Empty ;;
  let '(lst, err) := res in
  let '(st, ok) := status_FromError err in
  let err :=
    match err with
    | Some _ => if ok then Some (fmt_Errorf (status_Message st)) else err
    | None => err
    end in
  match err with
  | Some e =>
      log_Println ("error get list city " ++ Error e)%string ;;;
      emit (EvWriteHeader http_StatusInternalServerError)
  | None =>
      match lst with
      | None => emit (EvPanic "invalid memory address or nil pointer dereference")
      | Some cs =>
          let '(data, err) := json_Marshal (Cities_City cs) in
          match err with
          | Some e =>
              log_Println ("error marshalling result " ++ Error e)%string ;;;
              emit (EvWriteHeader http_StatusInternalServerError)
          | None =>
              emit (EvHeaderSet "Content-Type" "application/json; charset=utf-8") ;;;
              emit (EvWriteHeader http_StatusOK) ;;;
              let werr := writer_Write w data in
              emit (EvWrite data werr) ;;;
              match werr with
              | Some e => log_Println ("error writing result " ++ Error e)%string
              | None => ret tt
              end
          end
      end
  end.

End Rest.

(** ** Observations on a run *)

(** The cadence of a run: a [Poll] for every look at the context, a
    [Draw] for every letter drawn for the name of an item, a [Work] for
    every paced unit of work (the [time.Sleep] that each
    turn of a loop pays for its item). *)
Inductive Tick : Type := Poll | Draw | Work.

Definition tick_of (e : Event) : list Tick :=
  match e with
  | EvErr _ _ | EvDone _ _ => [Poll]
  | EvIntn _ _ => [Draw]
  | EvSleep _ => [Work]
  | _ => []
  end.

Definition ticks (evs : list Event) : list Tick := flat_map tick_of evs.

(** One turn of the loop of [List]: poll, make the item, pay for it. *)
Definition List_turn : list Tick := Poll :: repeat Draw 10 ++ [Work].

(** One turn of the loop of [ListStream]: pay for the item, make it. *)
Definition ListStream_turn : list Tick := Work :: repeat Draw 10.

(** The messages [stream.Send] accepted, with the clock of each. *)
Definition sent_of (e : Event) : list (Z * City) :=
  match e with
  | EvSend t m None => [(t, CityStream_City m)]
  | _ => []
  end.

Definition sent (evs : list Event) : list (Z * City) := flat_map sent_of evs.

(** The ids [1..n] as the loops produce them, starting from index [a]. *)
Definition ids_from (a n : nat) : list Z :=
  map (fun i => uint32 (Z.of_nat i)) (seq a n).

(** The calls a run makes on the [http.ResponseWriter], in order. *)
Definition is_writer_call (e : Event) : bool :=
  match e with
  | EvHeaderSet _ _ | EvWriteHeader _ | EvWrite _ _ => true
  | _ => false
  end.

Definition writer_calls (evs : list Event) : list Event :=
  filter is_writer_call evs.

(** A run that makes no call on the response writer. *)
Definition off_writer (evs : list Event) : Prop :=
  Forall (fun e => is_writer_call e = false) evs.

(** The durations a run sleeps, in order. *)
Definition sleeps (evs : list Event) : list Z :=
  flat_map (fun e => match e with EvSleep d => [d] | _ => [] end) evs.

(** ** Sample inputs *)

Definition w0 : World := {| now := 0; rng := fun k => (7 * k + 3)%nat |}.

(** A context nobody cancels. *)
Definition live : Context := fun _ => None.

(** [context.WithDeadline]: done from clock [d] on. *)
Definition deadline_at (d : Z) : Context :=
  fun t => if d <=? t then Some context_DeadlineExceeded else None.

(** A context whose [cancel] function is called at clock [d]. *)
Definition cancel_at (d : Z) : Context :=
  fun t => if d <=? t then Some context_Canceled else None.

(** A context implementation of the caller's own whose [Err] answers
    with an error that is neither of the two sentinels. *)
Definition foreign_done (msg : string) : Context :=
  fun _ => Some (errorString msg).

(** A stream whose [Send] fails with the context's error once the
    context is done, as a transport does for an abandoned call. *)
Definition transport_stream (ctx : Context) : ListStreamServer :=
  {| stream_Context := ctx; stream_Send := fun t _ => ctx t |}.

(** A stream whose [Send] never fails. *)
Definition reliable_stream (ctx : Context) : ListStreamServer :=
  {| stream_Context := ctx; stream_Send := fun _ _ => None |}.

Definition sample_Marshal (l : list City) : string * option error :=
  ("[...]", None).

Definition sample_writer : ResponseWriter :=
  {| writer_Write := fun _ => None |}.

(** ** More observations on a run *)

(** The lines [log.Println] wrote, in order. *)
Definition log_lines (evs : list Event) : list string :=
  flat_map (fun e => match e with EvLog l => [l] | _ => [] end) evs.

(** The status codes handed to [w.WriteHeader], in order. *)
Definition status_codes (evs : list Event) : list Z :=
  flat_map (fun e => match e with EvWriteHeader c => [c] | _ => [] end) evs.

(** Whether a run ends in a panic. *)
Definition panics (evs : list Event) : bool :=
  existsb (fun e => match e with EvPanic _ => true | _ => false end) evs.

(** The raw draws [rand.Intn] took from the random source, in order. *)
Definition draws (evs : list Event) : list (nat * nat) :=
  flat_map (fun e => match e with EvIntn n v => [(n, v)] | _ => [] end) evs.

(** A name as [randSeq] builds it: an upper-case letter followed by
    lower-case letters. *)
Definition capitalised (s : string) : bool :=
  match list_ascii_of_string s with
  | [] => true
  | c :: rest => in_range "A" "Z" c && forallb (in_range "a" "z") rest
  end.

(** The letters [randSeq n] picks when the random source is [g]. *)
Definition picked (g : nat -> nat) (n : nat) : list ascii :=
  map (fun i => nth (g i mod List.length letters)%nat letters "a"%char)
    (seq 0 n).

(** An item whose name is what [randSeq(10)] builds. *)
Definition well_named (c : City) : bool :=
  (String.length (Name c) =? 10)%nat && capitalised (Name c).

(** The effects of the two work loops: polls, draws, sleeps, [println]
    and, for the stream, [Send]. *)
Definition loop_event (e : Event) : bool :=
  match e with
  | EvErr _ _ | EvDone _ _ | EvIntn _ _ | EvSleep _ | EvPrintln _
  | EvSend _ _ _ => true
  | _ => false
  end.

(** The messages handed to [stream.Send], accepted or not, in order. *)
Definition handed (evs : list Event) : list City :=
  flat_map (fun e => match e with
                     | EvSend _ m _ => [CityStream_City m]
                     | _ => []
                     end) evs.

(** A writer whose [Write] fails, as on a connection the peer closed. *)
Definition broken_writer : ResponseWriter :=
  {| writer_Write := fun _ => Some (errorString "broken pipe") |}.

(** ** The client *)

(** What one call of [stream.Recv()] gives: a message, the end of the
    stream ([io.EOF]), or any other error. *)
Inductive RecvOutcome : Type :=
| RecvMsg (m : CityStream)
| RecvEOF
| RecvErr (e : error).

(** [cities.CitiesService_ListStreamClient]: what the k-th call of
    [Recv] gives, counting from 0. *)
Record ListStreamClient : Type := { client_Recv : nat -> RecvOutcome }.

(** [cities.CitiesServiceClient]: [ListStream] opens a stream or fails. *)
Record CitiesServiceClient : Type := {
  client_ListStream : Context -> EmptyMessage -> ListStreamClient + error
}.

Inductive ClientEvent : Type :=
| CDial (target : string)          (* grpc.Dial(target, ...) *)
| COpen                            (* city.ListStream(ctx, ...) *)
| CRecv (k : nat)                  (* stream.Recv(), the k-th call *)
| CStdout (s : string)             (* fmt.Printf, fmt.Println *)
| CStderr (s : string)             (* println *)
| CClose                           (* conn.Close() *)
| CCancel.                         (* cancel() *)

(** The line feed. *)
Definition nl : string := String (ascii_of_nat 10) EmptyString.

(** What the client wrote on standard output, in order. *)
Definition stdout (evs : list ClientEvent) : list string :=
  flat_map (fun e => match e with CStdout s => [s] | _ => [] end) evs.

(** The calls of [Recv] a run made, in order. *)
Definition recvs (evs : list ClientEvent) : list nat :=
  flat_map (fun e => match e with CRecv k => [k] | _ => [] end) evs.

(** The messages among the first [k] outcomes of [Recv]. *)
Definition received (stream : ListStreamClient) (k : nat) : list CityStream :=
  flat_map (fun j => match client_Recv stream j with
                     | RecvMsg m => [m]
                     | _ => []
                     end) (seq 0 k).

(** The first [k] calls of [Recv] give messages. *)
Definition messages_before (stream : ListStreamClient) (k : nat) : Prop :=
  forall j, (j < k)%nat -> exists m, client_Recv stream j = RecvMsg m.

(** A format that [fmt.Errorf] copies as it is: it holds no [%]. *)
Definition no_verb (s : string) : bool :=
  forallb (fun c => negb (Ascii.eqb c "%")) (list_ascii_of_string s).

Module client.
Section Client.

(** The [String] method of the generated [City] message, which [%v]
    prints; the generated code is not part of the sources. *)
Variable City_String : City -> string.

(** The [for] loop of [callStream] from the k-th call of [Recv] on.
    [fuel] bounds the number of turns; [None] is a loop that has not
    returned within it. *)
Fixpoint recv_loop (fuel : nat) (stream : ListStreamClient) (k : nat)
  : option (option error) * list ClientEvent :=
  match fuel with
  | O => (None, [])
  | S fuel' =>
      match client_Recv stream k with
      | RecvEOF =>
          (Some None, [CRecv k; CStdout ("end stream" ++ nl)%string])
      | RecvErr e => (Some (Some e), [CRecv k])
      | RecvMsg resp =>
          let '(r, evs) := recv_loop fuel' stream (S k) in
          (r, [CRecv k;
               CStdout ("Resp : " ++ City_String (CityStream_City resp))%string;
               CStderr nl] ++ evs)
      end
  end.

Definition callStream (fuel : nat) (ctx : Context) (city : CitiesServiceClient)
  : option (option error) * list ClientEvent :=
  match client_ListStream city ctx Empty with
  | inr err => (Some (Some err), [COpen])
  | inl stream =>
      let '(r, evs) := recv_loop fuel stream 0 in
      (r, COpen :: evs)
  end.

(** [main] of the client, started at clock [t0]. [dial] is what
    [grpc.Dial] gives for a target. The deferred calls run when [main]
    returns, the last deferred first. *)
Definition main (fuel : nat)
    (dial : string -> CitiesServiceClient + error) (t0 : Z)
  : option unit * list ClientEvent :=
  let ctx := deadline_at (t0 + 3 * time_Second) in
  match dial ":9099" with
  | inr err =>
      (Some tt,
       [CDial ":9099"; CStdout ("did not connect: " ++ Error err)%string;
        CCancel])
  | inl city =>
      let '(r, evs) := callStream fuel ctx city in
      match r with
      | None => (None, CDial ":9099" :: evs)
      | Some err =>
          let '(st, ok) := status_FromError err in
          let err :=
            match err with
            | Some _ =>
                if ok then Some (fmt_Errorf (status_Message st)) else err
            | None => err
            end in
          match err with
          | Some e =>
              (Some tt,
               CDial ":9099" :: evs
               ++ [CStdout ("Error when calling grpc service: "
                            ++ Error e)%string;
                   CClose; CCancel])
          | None => (Some tt, CDial ":9099" :: evs ++ [CClose; CCancel])
          end
      end
  end.

End Client.
End client.

(** The lines of the client's output that cannot come from the loop of
    [callStream] or run before it: the deferred calls. *)
Definition is_release (e : ClientEvent) : bool :=
  match e with
  | CClose | CCancel => true
  | _ => false
  end.

(** A sample rendering of a [City]. *)
Definition sample_City_String (c : City) : string := Name c.

(** A stream of two messages that then ends with the given outcome. *)
Definition sample_recv (last : RecvOutcome) : ListStreamClient :=
  {| client_Recv := fun k =>
       match k with
       | 0%nat => RecvMsg {| CityStream_City := {| Id := 1; Name := "Tojuzbpsij" |} |}
       | 1%nat => RecvMsg {| CityStream_City := {| Id := 2; Name := "Lldeiysdit" |} |}
       | _ => last
       end |}.

Definition sample_city (last : RecvOutcome) : CitiesServiceClient :=
  {| client_ListStream := fun _ _ => inl (sample_recv last) |}.

(** A dial that connects to a server whose stream is [sample_recv]. *)
Definition sample_dial (last : RecvOutcome)
  : string -> CitiesServiceClient + error :=
  fun _ => inl (sample_city last).

(** What a client sees when its own deadline ends the call. *)
Definition deadline_status : error :=
  status_Error codes.DeadlineExceeded "context deadline exceeded".

(** A stream that never stops delivering. *)
Definition endless_recv : ListStreamClient :=
  {| client_Recv := fun k =>
       RecvMsg {| CityStream_City := {| Id := Z.of_nat k; Name := "X" |} |} |}.

(** * Properties *)

(** ** Running the primitives *)

Lemma ticks_app (a b : list Event) : ticks (a ++ b) = ticks a ++ ticks b.
Proof. apply flat_map_app. Qed.

Lemma sent_app (a b : list Event) : sent (a ++ b) = sent a ++ sent b.
Proof. apply flat_map_app. Qed.

Section Run.
Context {A B : Type}.
Variables (m : M A) (k : A -> M B) (w : World).

Lemma result_bind :
  result (bind m k w) = result (k (result (m w)) (world (m w))).
Proof.
  unfold bind, result, world. destruct (m w) as [[a w1] e1]; cbn [fst snd].
  now destruct (k a w1) as [[b w2] e2].
Qed.

Lemma world_bind :
  world (bind m k w) = world (k (result (m w)) (world (m w))).
Proof.
  unfold bind, result, world. destruct (m w) as [[a w1] e1]; cbn [fst snd].
  now destruct (k a w1) as [[b w2] e2].
Qed.

Lemma events_bind :
  events (bind m k w)
  = events (m w) ++ events (k (result (m w)) (world (m w))).
Proof.
  unfold bind, result, world, events.
  destruct (m w) as [[a w1] e1]; cbn [fst snd].
  now destruct (k a w1) as [[b w2] e2].
Qed.
End Run.

Lemma result_ret {A} (a : A) (w : World) : result (ret a w) = a.
Proof. reflexivity. Qed.

Lemma world_ret {A} (a : A) (w : World) : world (ret a w) = w.
Proof. reflexivity. Qed.

Lemma events_ret {A} (a : A) (w : World) : events (ret a w) = [].
Proof. reflexivity. Qed.

Lemma result_contextError (ctx : Context) (w : World) :
  result (contextError ctx w) = contextError_switch (ctx (now w)).
Proof. reflexivity. Qed.

Lemma world_contextError (ctx : Context) (w : World) :
  world (contextError ctx w) = w.
Proof. reflexivity. Qed.

Lemma events_contextError (ctx : Context) (w : World) :
  events (contextError ctx w) = [EvErr (now w) (ctx (now w))].
Proof. reflexivity. Qed.

Lemma world_time_Sleep (d : Z) (w : World) :
  world (time_Sleep d w) = {| now := now w + Z.max 0 d; rng := rng w |}.
Proof. reflexivity. Qed.

Lemma events_time_Sleep (d : Z) (w : World) :
  events (time_Sleep d w) = [EvSleep d].
Proof. reflexivity. Qed.

Lemma world_println (v : printable) (w : World) : world (println v w) = w.
Proof. reflexivity. Qed.

Lemma events_println (v : printable) (w : World) :
  events (println v w) = [EvPrintln v].
Proof. reflexivity. Qed.

Lemma world_rand_Intn (n : nat) (w : World) :
  now (world (rand_Intn n w)) = now w.
Proof. reflexivity. Qed.

Lemma events_rand_Intn (n : nat) (w : World) :
  events (rand_Intn n w) = [EvIntn n (rng w 0 mod n)%nat].
Proof. reflexivity. Qed.

Lemma result_Send (stream : ListStreamServer) (m : CityStream) (w : World) :
  result (Send stream m w) = stream_Send stream (now w) m.
Proof. reflexivity. Qed.

Lemma world_Send (stream : ListStreamServer) (m : CityStream) (w : World) :
  world (Send stream m w) = w.
Proof. reflexivity. Qed.

Lemma events_Send (stream : ListStreamServer) (m : CityStream) (w : World) :
  events (Send stream m w)
  = [EvSend (now w) m (stream_Send stream (now w) m)].
Proof. reflexivity. Qed.

Create Rewrite HintDb run.

#[local] Hint Rewrite @result_bind @world_bind @events_bind
  @result_ret @world_ret @events_ret
  result_contextError world_contextError events_contextError
  world_time_Sleep events_time_Sleep world_println events_println
  world_rand_Intn events_rand_Intn result_Send world_Send events_Send
  ticks_app sent_app app_nil_r : run.

Ltac run_step :=
  repeat first [ progress autorewrite with run | progress cbv beta ].

Lemma fill_runes_quiet (n : nat) :
  forall w,
    now (world (fill_runes n w)) = now w
    /\ ticks (events (fill_runes n w)) = repeat Draw n
    /\ sent (events (fill_runes n w)) = [].
Proof.
  induction n as [|n IH]; intro w; [repeat split|].
  cbn [fill_runes]. run_step.
  destruct (IH (world (rand_Intn (List.length letters) w))) as (Hn & Ht & Hs).
  rewrite Hn, Ht, Hs. run_step. repeat split.
Qed.

Lemma randSeq_quiet (n : nat) (w : World) :
  now (world (randSeq n w)) = now w
  /\ ticks (events (randSeq n w)) = repeat Draw n
  /\ sent (events (randSeq n w)) = [].
Proof.
  unfold randSeq. run_step. apply fill_runes_quiet.
Qed.

(** ** The loop of [List] *)

Lemma print_loop_run (w : World) :
  for_each (R := unit) (seq 1 9) tt
    (fun i _ => println (PInt (Z.of_nat i)) ;;; ret (inr tt)) w
  = (inr tt, w, map (fun i => EvPrintln (PInt (Z.of_nat i))) (seq 1 9)).
Proof. reflexivity. Qed.

Lemma List_body_abort (ctx : Context) (i : nat) (lst : list City)
    (w : World) (e : error) :
  contextError_switch (ctx (now w)) = Some e ->
  result (citiesServer.List_body ctx i lst w) = inl (None, Some e)
  /\ world (citiesServer.List_body ctx i lst w) = w
  /\ events (citiesServer.List_body ctx i lst w)
     = [EvErr (now w) (ctx (now w))].
Proof.
  intro H. unfold citiesServer.List_body. run_step.
  rewrite H. cbv beta iota. run_step. repeat split.
Qed.

Lemma List_body_go (ctx : Context) (i : nat) (lst : list City) (w : World) :
  contextError_switch (ctx (now w)) = None ->
  (exists name,
      result (citiesServer.List_body ctx i lst w)
      = inr (lst ++ [ {| Id := uint32 (Z.of_nat i); Name := name |} ]))
  /\ now (world (citiesServer.List_body ctx i lst w)) = now w + 100
  /\ ticks (events (citiesServer.List_body ctx i lst w)) = List_turn.
Proof.
  intro H. unfold citiesServer.List_body. run_step.
  rewrite H. cbv beta iota. run_step.
  destruct (randSeq_quiet 10 w) as (Hn & Ht & _).
  split; [eexists; reflexivity|].
  cbn [now]. rewrite Hn, Ht. split; reflexivity.
Qed.

(** What a run of [List] does from any turn of its loop on: it polls
    before every unit of work and once more after the last one; it stops
    at the first poll the classifier turns into an error and then hands
    out that error alone; otherwise it hands out every item. *)
Lemma List_from_spec (ctx : Context) :
  forall (n a : nat) (acc : list City) (w : World),
    let r := bind (for_each (seq a n) acc (citiesServer.List_body ctx))
               (citiesServer.List_finish ctx) w in
    exists k : nat,
      (k <= n)%nat
      /\ ticks (events r) = List.concat (repeat List_turn k) ++ [Poll]
      /\ (forall j : nat, (j < k)%nat ->
            contextError_switch (ctx (now w + 100 * Z.of_nat j)) = None)
      /\ match contextError_switch (ctx (now w + 100 * Z.of_nat k)) with
         | Some e => result r = (None, Some e)
         | None =>
             k = n
             /\ exists lst,
                 result r = (Some {| Cities_City := acc ++ lst |}, None)
                 /\ map Id lst = ids_from a n
         end.
Proof.
  induction n as [|n IH]; intros a acc w r; subst r.
  - exists 0%nat. cbn [seq for_each]. run_step.
    unfold citiesServer.List_finish. run_step.
    replace (now w + 100 * Z.of_nat 0) with (now w) by lia.
    split; [lia|]. split; [|split; [intros j Hj; lia|]].
    + destruct (contextError_switch (ctx (now w))); cbv beta iota; run_step.
      * reflexivity.
      * reflexivity.
    + destruct (contextError_switch (ctx (now w))); cbv beta iota; run_step.
      * reflexivity.
      * split; [reflexivity|]. exists []. rewrite app_nil_r. split; reflexivity.
  - cbn [seq for_each]. run_step.
    destruct (contextError_switch (ctx (now w))) as [e|] eqn:Hc.
    + destruct (List_body_abort ctx a acc w e Hc) as (Hr & Hw & He).
      exists 0%nat. rewrite Hr. cbv beta iota. run_step.
      unfold citiesServer.List_finish at 1 2. run_step. rewrite He.
      replace (now w + 100 * Z.of_nat 0) with (now w) by lia. rewrite Hc.
      split; [lia|]. split; [reflexivity|]. split; [intros j Hj; lia|reflexivity].
    + destruct (List_body_go ctx a acc w Hc) as ((name & Hr) & Hn & Ht).
      rewrite Hr. cbv beta iota. rewrite Ht.
      set (w1 := world (citiesServer.List_body ctx a acc w)) in *.
      set (acc1 := acc ++ [ {| Id := uint32 (Z.of_nat a); Name := name |} ]).
      specialize (IH (S a) acc1 w1). cbv zeta in IH.
      autorewrite with run in IH.
      destruct IH as (k & Hk & Hticks & Hlive & Hres).
      exists (S k). split; [lia|]. split; [|split].
      * rewrite <- app_assoc, Hticks. reflexivity.
      * intros j Hj. destruct j as [|j].
        -- replace (now w + 100 * Z.of_nat 0) with (now w) by lia. exact Hc.
        -- replace (now w + 100 * Z.of_nat (S j))
             with (now w1 + 100 * Z.of_nat j) by lia.
           apply Hlive. lia.
      * replace (now w + 100 * Z.of_nat (S k))
          with (now w1 + 100 * Z.of_nat k) by lia.
        destruct (contextError_switch (ctx (now w1 + 100 * Z.of_nat k))).
        -- exact Hres.
        -- destruct Hres as (-> & lst & Hres & Hids). split; [reflexivity|].
           exists ({| Id := uint32 (Z.of_nat a); Name := name |} :: lst).
           split.
           ++ rewrite Hres. unfold acc1. rewrite <- app_assoc. reflexivity.
           ++ cbn [map Id]. rewrite Hids. reflexivity.
Qed.

(** ** The loop of [ListStream] *)

Lemma ListStream_body_run (stream : ListStreamServer) (i : nat) (w : World) :
  let r := citiesServer.ListStream_body stream i tt w in
  let t := now w + 1000 in
  exists name : string,
    let c := {| Id := uint32 (Z.of_nat i); Name := name |} in
    now (world r) = t
    /\ ticks (events r) = ListStream_turn
    /\ match stream_Send stream t {| CityStream_City := c |} with
       | None => result r = inr tt /\ sent (events r) = [(t, c)]
       | Some e =>
           result r
           = inl (Some (status_Errorf_v codes.Unknown
                          "cannot send stream response: " e))
           /\ sent (events r) = []
       end.
Proof.
  cbv zeta. unfold citiesServer.ListStream_body. run_step.
  set (w1 := {| now := now w + Z.max 0 (1 * time_Second); rng := rng w |}).
  destruct (randSeq_quiet 10 w1) as (Hn & Ht & Hs).
  assert (Hw1 : now w1 = now w + 1000) by reflexivity.
  exists (result (randSeq 10 w1)).
  rewrite Hn, Ht, Hs, Hw1.
  destruct (stream_Send stream (now w + 1000) _) eqn:E;
    cbv beta iota; run_step; rewrite ?Hn, ?Hs; repeat split; assumption.
Qed.

(** What the loop of [ListStream] does from any turn on: it never looks
    at the context; every second it hands one message to [Send]; it goes
    through all its turns unless a [Send] fails, and then returns that
    failure wrapped in an [Unknown] status. *)
Lemma ListStream_loop_spec (stream : ListStreamServer) :
  forall (n a : nat) (w : World),
    let r := for_each (seq a n) tt (citiesServer.ListStream_body stream) w in
    exists k : nat,
      (k <= n)%nat
      /\ map fst (sent (events r))
         = map (fun j => now w + 1000 * Z.of_nat j) (seq 1 k)
      /\ map (fun p => Id (snd p)) (sent (events r)) = ids_from a k
      /\ ((k = n
           /\ result r = inr tt
           /\ ticks (events r) = List.concat (repeat ListStream_turn n)
           /\ now (world r) = now w + 1000 * Z.of_nat n)
          \/ ((k < n)%nat
              /\ ticks (events r) = List.concat (repeat ListStream_turn (S k))
              /\ exists m e,
                  stream_Send stream (now w + 1000 * Z.of_nat (S k)) m = Some e
                  /\ Id (CityStream_City m) = uint32 (Z.of_nat (a + k))
                  /\ result r
                     = inl (Some (status_Errorf_v codes.Unknown
                                    "cannot send stream response: " e)))).
Proof.
  induction n as [|n IH]; intros a w r; subst r.
  - exists 0%nat. cbn [seq for_each]. run_step.
    split; [lia|]. split; [reflexivity|]. split; [reflexivity|].
    left. repeat split. cbn. lia.
  - cbn [seq for_each]. run_step.
    destruct (ListStream_body_run stream a w) as (name & Hn & Ht & Hsend).
    cbv zeta in Hn, Ht, Hsend.
    set (c := {| Id := uint32 (Z.of_nat a); Name := name |}) in *.
    destruct (stream_Send stream (now w + 1000) {| CityStream_City := c |})
      as [e|] eqn:E.
    + destruct Hsend as (Hr & Hs). exists 0%nat.
      rewrite Hr. cbv beta iota. run_step. rewrite Hs, Ht.
      split; [lia|]. split; [reflexivity|]. split; [reflexivity|].
      right. split; [lia|]. split; [reflexivity|].
      exists {| CityStream_City := c |}, e.
      replace (now w + 1000 * Z.of_nat 1) with (now w + 1000) by lia.
      rewrite Nat.add_0_r. repeat split. exact E.
    + destruct Hsend as (Hr & Hs).
      rewrite Hr. cbv beta iota. rewrite Hs, Ht.
      set (w1 := world (citiesServer.ListStream_body stream a tt w)) in *.
      destruct (IH (S a) w1) as (k & Hk & Htimes & Hids & Hend).
      exists (S k). split; [lia|]. split; [|split].
      * cbn [app map fst seq]. rewrite Htimes, <- (seq_shift k 1), map_map.
        replace (now w + 1000 * Z.of_nat 1) with (now w + 1000) by lia.
        apply f_equal, map_ext. intro j. lia.
      * cbn [app map snd]. rewrite Hids. reflexivity.
      * destruct Hend as [(-> & Hres & Hticks & Hnow)
                         | (Hlt & Hticks & m & e & Hm & Hid & Hres)].
        -- left. rewrite Hticks. repeat split; try assumption. lia.
        -- right. rewrite Hticks. split; [lia|]. split; [reflexivity|].
           exists m, e. split; [|split; [|exact Hres]].
           ++ replace (now w + 1000 * Z.of_nat (S (S k)))
                with (now w1 + 1000 * Z.of_nat (S k)) by lia. exact Hm.
           ++ rewrite Hid. f_equal. lia.
Qed.

Lemma List_unfold (N : nat) (ctx : Context) (w : World) :
  citiesServer.List N ctx Empty w
  = bind (for_each (seq 1 N) [] (citiesServer.List_body ctx))
      (citiesServer.List_finish ctx) w.
Proof. reflexivity. Qed.

Lemma ids_from_small (a n : nat) :
  Z.of_nat (a + n) <= 2 ^ 32 ->
  ids_from a n = map Z.of_nat (seq a n).
Proof.
  intro H. unfold ids_from. apply map_ext_in. intros i Hi.
  apply in_seq in Hi. unfold uint32. apply Z.mod_small. lia.
Qed.

Lemma switch_named (e : error) :
  named_reason e = true -> contextError_switch (Some e) <> None.
Proof. destruct e; cbn; congruence. Qed.

Lemma switch_Some_named (x : option error) (e : error) :
  contextError_switch x = Some e ->
  exists r, x = Some r /\ named_reason r = true.
Proof.
  destruct x as [[| | |]|]; cbn; try discriminate; intros _; eauto.
Qed.

(** A run of [List] under a context that honours the contract and is
    done by the clock of the last poll ends with the classified error
    and no message. *)
Lemma List_aborts_when_done (N : nat) (ctx : Context) (w : World)
    (t : Z) (r : error) :
  honours_contract ctx ->
  ctx t = Some r ->
  t <= now w + 100 * Z.of_nat N ->
  result (citiesServer.List N ctx Empty w)
  = (None, contextError_switch (Some r))
  /\ contextError_switch (Some r) <> None.
Proof.
  intros [Hirr Hnamed] Ht Hle.
  split; [|exact (switch_named r (Hnamed t r Ht))].
  pose proof (Hnamed t r Ht) as Hr.
  rewrite List_unfold.
  destruct (List_from_spec ctx N 1 [] w) as (k & Hk & _ & _ & Hres).
  destruct (contextError_switch (ctx (now w + 100 * Z.of_nat k)))
    as [e|] eqn:Hsw.
  - rewrite Hres. f_equal. rewrite <- Hsw. f_equal.
    destruct (switch_Some_named _ _ Hsw) as (r' & Hr' & _).
    destruct (Z_le_gt_dec t (now w + 100 * Z.of_nat k)) as [Hl|Hg].
    + exact (Hirr _ _ _ Hl Ht).
    + rewrite Hr'. f_equal.
      assert (Hlt : now w + 100 * Z.of_nat k <= t) by lia.
      pose proof (Hirr _ _ _ Hlt Hr') as H. congruence.
  - destruct Hres as (-> & _).
    rewrite (Hirr _ _ _ Hle Ht) in Hsw.
    now apply switch_named in Hsw.
Qed.

(** [List] hands out either a message and no error, or an error and no
    message. *)
Lemma List_result_shape (N : nat) (ctx : Context) (w : World) :
  (exists e, result (citiesServer.List N ctx Empty w) = (None, Some e))
  \/ (exists cs, result (citiesServer.List N ctx Empty w) = (Some cs, None)).
Proof.
  rewrite List_unfold.
  destruct (List_from_spec ctx N 1 [] w) as (k & _ & _ & _ & Hres).
  destruct (contextError_switch (ctx (now w + 100 * Z.of_nat k))) as [e|].
  - left. eauto.
  - right. destruct Hres as (_ & lst & Hres & _). eauto.
Qed.

(** ** [List] leaves the response writer alone *)

Lemma off_writer_app (a b : list Event) :
  off_writer a -> off_writer b -> off_writer (a ++ b).
Proof. intros Ha Hb. apply Forall_app. split; assumption. Qed.

Lemma off_writer_calls (evs : list Event) :
  off_writer evs -> writer_calls evs = [].
Proof.
  induction 1 as [|e evs He _ IH]; [reflexivity|].
  unfold writer_calls in *. cbn [filter]. rewrite He. exact IH.
Qed.

Lemma fill_runes_off_writer (n : nat) :
  forall w, off_writer (events (fill_runes n w)).
Proof.
  induction n as [|n IH]; intro w; [constructor|].
  cbn [fill_runes]. rewrite !events_bind, events_rand_Intn, events_ret.
  apply off_writer_app; [repeat constructor|].
  apply off_writer_app; [apply IH|constructor].
Qed.

Lemma randSeq_off_writer (n : nat) (w : World) :
  off_writer (events (randSeq n w)).
Proof.
  unfold randSeq. rewrite events_bind, events_ret.
  apply off_writer_app; [apply fill_runes_off_writer|constructor].
Qed.

Lemma List_body_off_writer (ctx : Context) (i : nat) (lst : list City)
    (w : World) :
  off_writer (events (citiesServer.List_body ctx i lst w)).
Proof.
  unfold citiesServer.List_body.
  rewrite events_bind, events_contextError, result_contextError.
  apply off_writer_app; [repeat constructor|].
  destruct (contextError_switch (ctx (now w))); [constructor|].
  rewrite !events_bind.
  apply off_writer_app; [apply randSeq_off_writer|].
  repeat constructor.
Qed.

Lemma List_loop_off_writer (ctx : Context) :
  forall (indices : list nat) (acc : list City) (w : World),
    off_writer (events (for_each indices acc (citiesServer.List_body ctx) w)).
Proof.
  induction indices as [|i rest IH]; intros acc w; [constructor|].
  cbn [for_each]. rewrite events_bind.
  apply off_writer_app; [apply List_body_off_writer|].
  destruct (result (citiesServer.List_body ctx i acc w)); [constructor|].
  apply IH.
Qed.

Lemma List_off_writer (N : nat) (ctx : Context) (w : World) :
  writer_calls (events (citiesServer.List N ctx Empty w)) = [].
Proof.
  apply off_writer_calls. rewrite List_unfold, events_bind.
  apply off_writer_app; [apply List_loop_off_writer|].
  destruct (result (for_each (seq 1 N) [] (citiesServer.List_body ctx) w))
    as [res|lst]; [constructor|].
  unfold citiesServer.List_finish.
  rewrite events_bind, events_contextError, result_contextError.
  apply off_writer_app; [repeat constructor|].
  destruct (contextError_switch _); [constructor|].
  rewrite events_bind, world_contextError, print_loop_run.
  repeat constructor.
Qed.

(** ** The sample contexts *)

Lemma deadline_at_honours_contract (d : Z) : honours_contract (deadline_at d).
Proof.
  split.
  - intros t t' e Hle. unfold deadline_at.
    destruct (Z.leb_spec d t); [|discriminate].
    destruct (Z.leb_spec d t'); [trivial|lia].
  - intros t e. unfold deadline_at.
    destruct (d <=? t); [|discriminate]. now intros [= <-].
Qed.

Lemma cancel_at_honours_contract (d : Z) : honours_contract (cancel_at d).
Proof.
  split.
  - intros t t' e Hle. unfold cancel_at.
    destruct (Z.leb_spec d t); [|discriminate].
    destruct (Z.leb_spec d t'); [trivial|lia].
  - intros t e. unfold cancel_at.
    destruct (d <=? t); [|discriminate]. now intros [= <-].
Qed.

(** ** The model on sample runs *)

Example randSeq_sample : result (randSeq 10 w0) = "Dkryfmtaho".
Proof. reflexivity. Qed.

Example List_sample :
  result (citiesServer.List 3 live Empty w0)
  = (Some {| Cities_City := [ {| Id := 1; Name := "Dkryfmtaho" |};
                              {| Id := 2; Name := "Vcjqxelszg" |};
                              {| Id := 3; Name := "Nubipwdkry" |} ] |},
     None).
Proof. reflexivity. Qed.

(** A done context with a foreign reason goes through [List] unnoticed. *)
Example List_foreign_done_sample :
  result (citiesServer.List 2 (foreign_done "shutdown") Empty w0)
  = (Some {| Cities_City := [ {| Id := 1; Name := "Dkryfmtaho" |};
                              {| Id := 2; Name := "Vcjqxelszg" |} ] |},
     None).
Proof. reflexivity. Qed.

Example rest_cancelled_sample :
  events (rest sample_Marshal 3 sample_writer
            {| Request_Context := cancel_at 0 |} w0)
  = [EvErr 0 (Some context_Canceled);
     EvLog "error get list city request is canceled";
     EvWriteHeader 500].
Proof. reflexivity. Qed.

(** * The specification, claim by claim *)

(** ** The error classifier *)

(** C7. [contextError] is a function of the reason [ctx.Err()] reports
    and of nothing else, and it leaves the clock and the random source
    as they were. On the three named reasons: no reason gives no error,
    [context.Canceled] gives the gRPC status [Canceled] (code 1) with
    message "request is canceled", [context.DeadlineExceeded] gives the
    gRPC status [DeadlineExceeded] (code 4) with message "deadline is
    exceeded". *)
Theorem contextError_named_reasons (ctx : Context) (w : World) :
  world (contextError ctx w) = w
  /\ (forall ctx' w', ctx' (now w') = ctx (now w) ->
        result (contextError ctx' w') = result (contextError ctx w))
  /\ (ctx (now w) = None -> result (contextError ctx w) = None)
  /\ (ctx (now w) = Some context_Canceled ->
        result (contextError ctx w)
        = Some (status_Error codes.Canceled "request is canceled"))
  /\ (ctx (now w) = Some context_DeadlineExceeded ->
        result (contextError ctx w)
        = Some (status_Error codes.DeadlineExceeded "deadline is exceeded"))
  /\ codes.number codes.Canceled = 1
  /\ codes.number codes.DeadlineExceeded = 4.
Proof.
  rewrite result_contextError, world_contextError.
  split; [reflexivity|]. split.
  - intros ctx' w' H. rewrite result_contextError, H. reflexivity.
  - repeat split; intros ->; reflexivity.
Qed.

Lemma contextError_named_reasons_witness :
  result (contextError live w0) = None
  /\ result (contextError (cancel_at 0) w0)
     = Some (status_Error codes.Canceled "request is canceled")
  /\ result (contextError (deadline_at 0) w0)
     = Some (status_Error codes.DeadlineExceeded "deadline is exceeded").
Proof.
  split; [|split].
  - apply (contextError_named_reasons live w0). reflexivity.
  - apply (contextError_named_reasons (cancel_at 0) w0). reflexivity.
  - apply (contextError_named_reasons (deadline_at 0) w0). reflexivity.
Defined.


(** ** Buffered delivery *)

(** X16. Let the context honour the contract of package [context] and
    be done at some clock not later than the last poll of [List] (the
    poll after the loop, [100 * N] ms after the start). Then [List]
    returns the [nil] message, so no item at all, neither a part of the
    list nor the whole of it, together with the classified error, which
    is not [nil]. *)
Theorem List_discards_items_when_done (N : nat) (ctx : Context) (w : World)
    (t : Z) (r : error) :
  honours_contract ctx ->
  ctx t = Some r ->
  t <= now w + 100 * Z.of_nat N ->
  result (citiesServer.List N ctx Empty w)
  = (None, contextError_switch (Some r))
  /\ contextError_switch (Some r) <> None.
Proof.
  intros Hctx Ht Hle.
  exact (List_aborts_when_done N ctx w t r Hctx Ht Hle).
Qed.

Lemma List_discards_items_when_done_witness :
  result (citiesServer.List N_source (deadline_at 4900) Empty w0)
  = (None, Some (status_Error codes.DeadlineExceeded "deadline is exceeded"))
  /\ Some (status_Error codes.DeadlineExceeded "deadline is exceeded")
     <> None.
Proof.
  apply (List_discards_items_when_done N_source (deadline_at 4900) w0
           4900 context_DeadlineExceeded).
  - apply deadline_at_honours_contract.
  - reflexivity.
  - vm_compute. discriminate.
Defined.




(** ** Both strategies *)

Lemma result_ctx_Done_closed (ctx : Context) (w : World) :
  result (ctx_Done_closed ctx w)
  = match ctx (now w) with Some _ => true | None => false end.
Proof. reflexivity. Qed.

Lemma world_ctx_Done_closed (ctx : Context) (w : World) :
  world (ctx_Done_closed ctx w) = w.
Proof. reflexivity. Qed.

Lemma events_ctx_Done_closed (ctx : Context) (w : World) :
  events (ctx_Done_closed ctx w)
  = [EvDone (now w) match ctx (now w) with Some _ => true | None => false end].
Proof. reflexivity. Qed.

(** [ListStream] on a context that is already done when the call
    starts: the classifier's answer, after two polls and no [Send]. *)
Lemma ListStream_done_at_start (N : nat) (stream : ListStreamServer)
    (w : World) (e : error) :
  stream_Context stream (now w) = Some e ->
  result (citiesServer.ListStream N Empty stream w)
  = contextError_switch (Some e)
  /\ ticks (events (citiesServer.ListStream N Empty stream w)) = [Poll; Poll]
  /\ sent (events (citiesServer.ListStream N Empty stream w)) = [].
Proof.
  intro H. unfold citiesServer.ListStream.
  rewrite result_bind, events_bind, world_ctx_Done_closed,
    result_ctx_Done_closed, events_ctx_Done_closed, H.
  rewrite result_contextError, events_contextError, H.
  repeat split.
Qed.

(** [ListStream] on a context that is live when the call starts: one
    poll, then the loop. *)
Lemma ListStream_live_at_start (N : nat) (stream : ListStreamServer)
    (w : World) :
  stream_Context stream (now w) = None ->
  let loop := for_each (seq 1 N) tt (citiesServer.ListStream_body stream) w in
  let r := citiesServer.ListStream N Empty stream w in
  result r = match result loop with inl err => err | inr _ => None end
  /\ ticks (events r) = Poll :: ticks (events loop)
  /\ sent (events r) = sent (events loop).
Proof.
  intro H. cbv zeta. unfold citiesServer.ListStream.
  rewrite result_bind, events_bind, world_ctx_Done_closed,
    result_ctx_Done_closed, events_ctx_Done_closed, H.
  rewrite result_bind, events_bind.
  destruct (result (for_each (seq 1 N) tt
                      (citiesServer.ListStream_body stream) w)) as [err|u].
  - rewrite events_ret, result_ret, app_nil_r, ticks_app, sent_app.
    repeat split.
  - rewrite events_bind, result_bind, events_println, events_ret, result_ret.
    rewrite !ticks_app, !sent_app, !app_nil_r. repeat split.
Qed.

(** C6. Under a context that never becomes done, and with [N] below
    2^32 so that [uint32] does not wrap, [List] returns a message whose
    items carry the ids 1, 2, ..., N in this order and no error; and
    [ListStream], on a stream whose [Send] does not fail, sends items
    with the ids 1, 2, ..., N in this order and returns no error. *)
Theorem full_completion (N : nat) (ctx : Context) (stream : ListStreamServer)
    (w : World) :
  Z.of_nat N < 2 ^ 32 ->
  (forall t, ctx t = None) ->
  (forall t, stream_Context stream t = None) ->
  (forall t m, stream_Send stream t m = None) ->
  (exists lst,
      result (citiesServer.List N ctx Empty w)
      = (Some {| Cities_City := lst |}, None)
      /\ map Id lst = map Z.of_nat (seq 1 N))
  /\ result (citiesServer.ListStream N Empty stream w) = None
  /\ map (fun p => Id (snd p))
       (sent (events (citiesServer.ListStream N Empty stream w)))
     = map Z.of_nat (seq 1 N).
Proof.
  intros HN Hctx Hsctx Hsend. split.
  - rewrite List_unfold.
    destruct (List_from_spec ctx N 1 [] w) as (k & _ & _ & _ & Hres).
    rewrite Hctx in Hres. cbn in Hres.
    destruct Hres as (_ & lst & Hres & Hids).
    exists lst. split; [exact Hres|].
    rewrite Hids. apply ids_from_small. lia.
  - destruct (ListStream_live_at_start N stream w (Hsctx _)) as (Hr & _ & Hs).
    rewrite Hr, Hs.
    destruct (ListStream_loop_spec stream N 1 w)
      as (k & _ & _ & Hids & [(-> & Hres & _) | (_ & _ & m & e & Hm & _)]).
    + rewrite Hres, Hids. split; [reflexivity|].
      apply ids_from_small. lia.
    + rewrite Hsend in Hm. discriminate Hm.
Qed.

Lemma full_completion_witness :
  (exists lst,
      result (citiesServer.List N_source live Empty w0)
      = (Some {| Cities_City := lst |}, None)
      /\ map Id lst = map Z.of_nat (seq 1 N_source))
  /\ result (citiesServer.ListStream N_source Empty (reliable_stream live) w0)
     = None
  /\ map (fun p => Id (snd p))
       (sent (events (citiesServer.ListStream N_source Empty
                        (reliable_stream live) w0)))
     = map Z.of_nat (seq 1 N_source).
Proof.
  apply (full_completion N_source live (reliable_stream live) w0).
  - reflexivity.
  - intro t. reflexivity.
  - intro t. reflexivity.
  - intros t m. reflexivity.
Defined.

(** ** Incremental delivery *)

(** C2, at an input where the code departs from it. The context is live
    when the call starts and is cancelled 1.5 s later. [ListStream]
    polls once, at the start, and never again: on a stream whose [Send]
    fails once the context is done, the second [Send] fails and the call
    ends with an [Unknown] status, not with the classified error; on a
    stream whose [Send] keeps succeeding, all 49 items go out and the
    call ends without error. *)
Lemma ListStream_mid_stream_cancellation_unclassified :
  cancel_at 1500 (now w0) = None
  /\ cancel_at 1500 1500 = Some context_Canceled
  /\ ticks (events (citiesServer.ListStream N_source Empty
                      (transport_stream (cancel_at 1500)) w0))
     = Poll :: List.concat (repeat ListStream_turn 2)
  /\ result (citiesServer.ListStream N_source Empty
               (transport_stream (cancel_at 1500)) w0)
     = Some (status_Error codes.Unknown
               "cannot send stream response: context canceled")
  /\ result (citiesServer.ListStream N_source Empty
               (transport_stream (cancel_at 1500)) w0)
     <> contextError_switch (Some context_Canceled)
  /\ ticks (events (citiesServer.ListStream N_source Empty
                      (reliable_stream (cancel_at 1500)) w0))
     = Poll :: List.concat (repeat ListStream_turn 49)
  /\ List.length (sent (events (citiesServer.ListStream N_source Empty
                                  (reliable_stream (cancel_at 1500)) w0)))
     = 49%nat
  /\ result (citiesServer.ListStream N_source Empty
               (reliable_stream (cancel_at 1500)) w0)
     = None.
Proof. vm_compute. repeat split. discriminate. Qed.

(** C2 as the code has it. [ListStream] looks at the context exactly
    once, before the first item. If the context is then done for one of
    the two named reasons, the call ends with the classified error and
    nothing is sent. If it is then live, the loop never looks at it
    again: the items go out in order, one per second, and the call ends
    either after all [N] of them without error, or at the first [Send]
    that fails, with an [Unknown] status that wraps the failure. *)
Theorem ListStream_polls_only_at_start (N : nat) (stream : ListStreamServer)
    (w : World) :
  (forall e, stream_Context stream (now w) = Some e ->
     named_reason e = true ->
     result (citiesServer.ListStream N Empty stream w)
     = contextError_switch (Some e)
     /\ contextError_switch (Some e) <> None
     /\ sent (events (citiesServer.ListStream N Empty stream w)) = [])
  /\ (stream_Context stream (now w) = None ->
      exists k : nat,
        (k <= N)%nat
        /\ map (fun p => Id (snd p))
             (sent (events (citiesServer.ListStream N Empty stream w)))
           = ids_from 1 k
        /\ map fst (sent (events (citiesServer.ListStream N Empty stream w)))
           = map (fun j => now w + 1000 * Z.of_nat j) (seq 1 k)
        /\ ((k = N
             /\ result (citiesServer.ListStream N Empty stream w) = None
             /\ ticks (events (citiesServer.ListStream N Empty stream w))
                = Poll :: List.concat (repeat ListStream_turn N))
            \/ ((k < N)%nat
                /\ ticks (events (citiesServer.ListStream N Empty stream w))
                   = Poll :: List.concat (repeat ListStream_turn (S k))
                /\ exists m e,
                    stream_Send stream (now w + 1000 * Z.of_nat (S k)) m
                    = Some e
                    /\ result (citiesServer.ListStream N Empty stream w)
                       = Some (status_Error codes.Unknown
                                 ("cannot send stream response: "
                                  ++ Error e)%string)))).
Proof.
  split.
  - intros e H He.
    destruct (ListStream_done_at_start N stream w e H) as (Hr & _ & Hs).
    rewrite Hr, Hs. repeat split. exact (switch_named e He).
  - intro H.
    destruct (ListStream_live_at_start N stream w H) as (Hr & Ht & Hs).
    rewrite Hr, Ht, Hs.
    destruct (ListStream_loop_spec stream N 1 w)
      as (k & Hk & Htimes & Hids & Hend).
    exists k. split; [exact Hk|]. split; [exact Hids|]. split; [exact Htimes|].
    destruct Hend as [(-> & Hres & Hticks & _)
                     | (Hlt & Hticks & m & e & Hm & _ & Hres)].
    + left. rewrite Hres, Hticks. repeat split.
    + right. rewrite Hres, Hticks. split; [exact Hlt|]. split; [reflexivity|].
      exists m, e. split; [exact Hm|reflexivity].
Qed.

Lemma ListStream_polls_only_at_start_witness :
  (result (citiesServer.ListStream N_source Empty
             (transport_stream (cancel_at 0)) w0)
   = contextError_switch (Some context_Canceled)
   /\ contextError_switch (Some context_Canceled) <> None
   /\ sent (events (citiesServer.ListStream N_source Empty
                      (transport_stream (cancel_at 0)) w0)) = [])
  /\ (exists k : nat,
        (k <= N_source)%nat
        /\ map (fun p => Id (snd p))
             (sent (events (citiesServer.ListStream N_source Empty
                              (transport_stream (cancel_at 1500)) w0)))
           = ids_from 1 k
        /\ map fst
             (sent (events (citiesServer.ListStream N_source Empty
                              (transport_stream (cancel_at 1500)) w0)))
           = map (fun j => now w0 + 1000 * Z.of_nat j) (seq 1 k)
        /\ ((k = N_source
             /\ result (citiesServer.ListStream N_source Empty
                          (transport_stream (cancel_at 1500)) w0) = None
             /\ ticks (events (citiesServer.ListStream N_source Empty
                                 (transport_stream (cancel_at 1500)) w0))
                = Poll :: List.concat (repeat ListStream_turn N_source))
            \/ ((k < N_source)%nat
                /\ ticks (events (citiesServer.ListStream N_source Empty
                                    (transport_stream (cancel_at 1500)) w0))
                   = Poll :: List.concat (repeat ListStream_turn (S k))
                /\ exists m e,
                    stream_Send (transport_stream (cancel_at 1500))
                      (now w0 + 1000 * Z.of_nat (S k)) m
                    = Some e
                    /\ result (citiesServer.ListStream N_source Empty
                                 (transport_stream (cancel_at 1500)) w0)
                       = Some (status_Error codes.Unknown
                                 ("cannot send stream response: "
                                  ++ Error e)%string)))).
Proof.
  split.
  - apply (ListStream_polls_only_at_start N_source
             (transport_stream (cancel_at 0)) w0); reflexivity.
  - apply (ListStream_polls_only_at_start N_source
             (transport_stream (cancel_at 1500)) w0); reflexivity.
Defined.

(** ** The timed scenario *)

(** C8, at the input it names. With a 3000 ms deadline, [ListStream]
    sleeps 1000 ms before each item, not 100 ms: on a stream whose
    [Send] fails once the deadline has passed, items 1 and 2 go out, at
    1000 ms and 2000 ms, and no other; these are 2 items, not 28 to
    30. *)
Lemma streaming_deadline_3000_delivers_two_items :
  sleeps (events (citiesServer.ListStream N_source Empty
                    (transport_stream (deadline_at 3000)) w0))
  = [1000; 1000; 1000]
  /\ map (fun p => (fst p, Id (snd p)))
       (sent (events (citiesServer.ListStream N_source Empty
                        (transport_stream (deadline_at 3000)) w0)))
     = [(1000, 1); (2000, 2)]
  /\ ~ (28 <= List.length
                (sent (events (citiesServer.ListStream N_source Empty
                                 (transport_stream (deadline_at 3000)) w0)))
         <= 30)%nat.
Proof. vm_compute. repeat split. intros [H _]. lia. Qed.

(** C8 as the code has it, for a call that starts at clock 0 with a
    deadline at 3000 ms and whatever the random source draws. [List]
    sleeps 100 ms per item, produces 30 items, meets the deadline at the
    poll before item 31 and returns no item and the [DeadlineExceeded]
    status. [ListStream] sleeps 1000 ms per item; on a stream whose
    [Send] fails once the deadline has passed it delivers items 1 and 2,
    at 1000 ms and 2000 ms, and ends at the third [Send] with an
    [Unknown] status that wraps the failure. *)
Theorem deadline_3000_scenario (g : nat -> nat) :
  result (citiesServer.List N_source (deadline_at 3000) Empty
            {| now := 0; rng := g |})
  = (None, Some (status_Error codes.DeadlineExceeded "deadline is exceeded"))
  /\ sleeps (events (citiesServer.List N_source (deadline_at 3000) Empty
                       {| now := 0; rng := g |}))
     = repeat 100 30
  /\ ticks (events (citiesServer.List N_source (deadline_at 3000) Empty
                      {| now := 0; rng := g |}))
     = List.concat (repeat List_turn 30) ++ [Poll]
  /\ sleeps (events (citiesServer.ListStream N_source Empty
                       (transport_stream (deadline_at 3000))
                       {| now := 0; rng := g |}))
     = repeat 1000 3
  /\ map (fun p => (fst p, Id (snd p)))
       (sent (events (citiesServer.ListStream N_source Empty
                        (transport_stream (deadline_at 3000))
                        {| now := 0; rng := g |})))
     = [(1000, 1); (2000, 2)]
  /\ result (citiesServer.ListStream N_source Empty
               (transport_stream (deadline_at 3000))
               {| now := 0; rng := g |})
     = Some (status_Error codes.Unknown
               "cannot send stream response: context deadline exceeded").
Proof. vm_compute. repeat split. Qed.

(** ** The HTTP endpoint *)

Lemma writer_calls_app (a b : list Event) :
  writer_calls (a ++ b) = writer_calls a ++ writer_calls b.
Proof. apply filter_app. Qed.

(** C9. The calls [rest] makes on the response writer depend only on
    how [List] and [json.Marshal] end. When [List] returns a message and
    no error and the encoding succeeds, they are: set the JSON content
    type, status 200, one [Write] of the encoded items. In every other
    case there is a single call, status 500, and so no body; this is the
    case in particular when the request's context is cancelled or past
    its deadline by the last poll of [List]. *)
Theorem rest_status_and_body (json_Marshal : list City -> string * option error)
    (N : nat) (rw : ResponseWriter) (r : Request) (w : World) :
  (forall cs data,
      result (citiesServer.List N (Request_Context r) Empty w)
      = (Some cs, None) ->
      json_Marshal (Cities_City cs) = (data, None) ->
      writer_calls (events (rest json_Marshal N rw r w))
      = [EvHeaderSet "Content-Type" "application/json; charset=utf-8";
         EvWriteHeader 200;
         EvWrite data (writer_Write rw data)])
  /\ ((forall cs data,
          result (citiesServer.List N (Request_Context r) Empty w)
          = (Some cs, None) ->
          json_Marshal (Cities_City cs) <> (data, None)) ->
      writer_calls (events (rest json_Marshal N rw r w))
      = [EvWriteHeader 500])
  /\ (forall t e,
         honours_contract (Request_Context r) ->
         Request_Context r t = Some e ->
         t <= now w + 100 * Z.of_nat N ->
         writer_calls (events (rest json_Marshal N rw r w))
         = [EvWriteHeader 500]).
Proof.
  assert (Hcalls :
    match result (citiesServer.List N (Request_Context r) Empty w) with
    | (Some cs, None) =>
        match json_Marshal (Cities_City cs) with
        | (data, None) =>
            writer_calls (events (rest json_Marshal N rw r w))
            = [EvHeaderSet "Content-Type" "application/json; charset=utf-8";
               EvWriteHeader 200;
               EvWrite data (writer_Write rw data)]
        | (_, Some _) =>
            writer_calls (events (rest json_Marshal N rw r w))
            = [EvWriteHeader 500]
        end
    | (_, Some _) =>
        writer_calls (events (rest json_Marshal N rw r w))
        = [EvWriteHeader 500]
    | (None, None) => True
    end).
  { unfold rest. rewrite events_bind, writer_calls_app, List_off_writer.
    cbn [app].
    destruct (result (citiesServer.List N (Request_Context r) Empty w))
      as [[cs|] [e|]]; cbv beta iota.
    - destruct e; reflexivity.
    - destruct (json_Marshal (Cities_City cs)) as [data [e|]]; cbv beta iota.
      + reflexivity.
      + destruct (writer_Write rw data) eqn:E;
          unfold writer_calls; cbn; rewrite ?E; reflexivity.
    - destruct e; reflexivity.
    - exact I. }
  split; [|split].
  - intros cs data Hres Hjson. rewrite Hres, Hjson in Hcalls. exact Hcalls.
  - intro Hfail.
    destruct (List_result_shape N (Request_Context r) w)
      as [(e & Hres) | (cs & Hres)]; rewrite Hres in Hcalls.
    + exact Hcalls.
    + destruct (json_Marshal (Cities_City cs)) as [data [e|]] eqn:Hjson.
      * exact Hcalls.
      * exfalso. exact (Hfail cs data Hres Hjson).
  - intros t e Hctx Ht Hle.
    destruct (List_aborts_when_done N _ w t e Hctx Ht Hle) as (Hres & Hsw).
    rewrite Hres in Hcalls.
    destruct (contextError_switch (Some e)); [exact Hcalls|].
    now contradiction Hsw.
Qed.

Lemma rest_status_and_body_witness :
  writer_calls (events (rest sample_Marshal N_source sample_writer
                          {| Request_Context := live |} w0))
  = [EvHeaderSet "Content-Type" "application/json; charset=utf-8";
     EvWriteHeader 200;
     EvWrite "[...]" None]
  /\ writer_calls (events (rest sample_Marshal N_source sample_writer
                             {| Request_Context := cancel_at 250 |} w0))
     = [EvWriteHeader 500].
Proof.
  split.
  - eapply (rest_status_and_body sample_Marshal N_source sample_writer
              {| Request_Context := live |} w0).
    + vm_compute. reflexivity.
    + reflexivity.
  - apply (rest_status_and_body sample_Marshal N_source sample_writer
             {| Request_Context := cancel_at 250 |} w0)
      with (t := 250) (e := context_Canceled).
    + apply cancel_at_honours_contract.
    + reflexivity.
    + vm_compute. discriminate.
Defined.

(** * Further properties of the code *)

(** ** [randSeq] *)

Lemma fill_runes_closed_form (n : nat) :
  forall w,
    result (fill_runes n w) = picked (rng w) n
    /\ draws (events (fill_runes n w))
       = map (fun i => (List.length letters,
                        (rng w i mod List.length letters)%nat)) (seq 0 n)
    /\ now (world (fill_runes n w)) = now w
    /\ forall k, rng (world (fill_runes n w)) k = rng w (n + k)%nat.
Proof.
  induction n as [|n IH]; intro w.
  - repeat split.
  - cbn [fill_runes].
    rewrite !result_bind, !world_bind, !events_bind, result_ret, world_ret,
      events_ret, app_nil_r.
    set (w1 := world (rand_Intn (List.length letters) w)).
    destruct (IH w1) as (Hr & Hd & Hn & Hg).
    assert (Hw1 : forall k, rng w1 k = rng w (S k)) by reflexivity.
    rewrite Hr, Hn. unfold draws in *. rewrite flat_map_app, Hd.
    unfold picked. cbn [seq map]. rewrite <- !seq_shift, !map_map.
    split; [|split; [|split]].
    + reflexivity.
    + reflexivity.
    + reflexivity.
    + intro k. rewrite Hg, Hw1. f_equal.
Qed.

(** X1. [randSeq n] is a function of the next [n] draws of the random
    source and of nothing else: it takes exactly [n] draws, each
    [rand.Intn(26)], turns the i-th into the letter of that index, and
    capitalises the word; it leaves the source advanced by [n] and the
    clock as it was. *)
Theorem randSeq_takes_n_draws (n : nat) (w : World) :
  result (randSeq n w)
  = strings_Title (string_of_list_ascii (picked (rng w) n))
  /\ draws (events (randSeq n w))
     = map (fun i => (26%nat, (rng w i mod 26)%nat)) (seq 0 n)
  /\ now (world (randSeq n w)) = now w
  /\ forall k, rng (world (randSeq n w)) k = rng w (n + k)%nat.
Proof.
  destruct (fill_runes_closed_form n w) as (Hr & Hd & Hn & Hg).
  unfold randSeq.
  rewrite result_bind, world_bind, events_bind, result_ret, world_ret,
    events_ret, app_nil_r, Hr.
  repeat split; assumption.
Qed.

Lemma lower_not_separator (c : ascii) :
  in_range "a" "z" c = true -> isSeparator c = false.
Proof.
  intro H. unfold isSeparator. rewrite H.
  destruct (in_range "0" "9" c); reflexivity.
Qed.

Lemma title_from_lower (l : list ascii) :
  forall p,
    isSeparator p = false ->
    forallb (in_range "a" "z") l = true ->
    title_from p l = l.
Proof.
  induction l as [|c l IH]; intros p Hp Hl; [reflexivity|].
  cbn [forallb] in Hl. apply andb_prop in Hl as [Hc Hl].
  cbn [title_from]. rewrite Hp.
  f_equal. apply IH; [apply lower_not_separator|]; assumption.
Qed.

Lemma picked_in_letters (g : nat -> nat) (n : nat) (c : ascii) :
  In c (picked g n) -> In c letters.
Proof.
  unfold picked. intro H. apply in_map_iff in H as (i & <- & _).
  apply nth_In. apply Nat.mod_upper_bound. discriminate.
Qed.

Lemma letters_lower (c : ascii) : In c letters -> in_range "a" "z" c = true.
Proof.
  assert (H : forallb (in_range "a" "z") letters = true) by reflexivity.
  rewrite forallb_forall in H. apply H.
Qed.

Lemma letters_title_upper (c : ascii) :
  In c letters -> in_range "A" "Z" (toTitle c) = true.
Proof.
  assert (H : forallb (fun c => in_range "A" "Z" (toTitle c)) letters = true)
    by reflexivity.
  rewrite forallb_forall in H. apply H.
Qed.

Lemma string_of_list_length (l : list ascii) :
  String.length (string_of_list_ascii l) = List.length l.
Proof. induction l as [|c l IH]; [reflexivity|]. cbn. now rewrite IH. Qed.

Lemma Title_of_picked (g : nat -> nat) (n : nat) :
  list_ascii_of_string
    (strings_Title (string_of_list_ascii (picked g n)))
  = match picked g n with
    | [] => []
    | c :: rest => toTitle c :: rest
    end.
Proof.
  unfold strings_Title.
  rewrite !list_ascii_of_string_of_list_ascii.
  assert (Hin : forall c, In c (picked g n) -> in_range "a" "z" c = true).
  { intros c Hc. apply letters_lower. exact (picked_in_letters g n c Hc). }
  destruct (picked g n) as [|c rest]; [reflexivity|].
  cbn [title_from]. change (isSeparator " ") with true. cbv iota.
  f_equal. apply title_from_lower.
  - apply lower_not_separator, Hin. now left.
  - apply forallb_forall. intros x Hx. apply Hin. now right.
Qed.

(** X2. Whatever the random source draws, [randSeq n] is a word of
    exactly [n] letters, the first in upper case and all the others in
    lower case. *)
Theorem randSeq_is_a_capitalised_word (n : nat) (w : World) :
  String.length (result (randSeq n w)) = n
  /\ capitalised (result (randSeq n w)) = true.
Proof.
  destruct (randSeq_takes_n_draws n w) as (Hr & _).
  rewrite Hr. unfold capitalised.
  rewrite <- (string_of_list_ascii_of_string
                (strings_Title (string_of_list_ascii (picked (rng w) n)))).
  rewrite string_of_list_length, !list_ascii_of_string_of_list_ascii.
  rewrite Title_of_picked.
  assert (Hlen : List.length (picked (rng w) n) = n).
  { unfold picked. now rewrite length_map, length_seq. }
  assert (Hin : forall c, In c (picked (rng w) n) -> In c letters)
    by (intro c; apply picked_in_letters).
  destruct (picked (rng w) n) as [|c rest]; [split; [exact Hlen|reflexivity]|].
  split; [exact Hlen|].
  apply andb_true_intro. split.
  - apply letters_title_upper, Hin. now left.
  - apply forallb_forall. intros x Hx. apply letters_lower, Hin. now right.
Qed.

(** ** The two loops, event by event *)

Lemma for_each_result_invariant {A R} (P : A -> Prop)
    (body : nat -> A -> M (R + A)) :
  (forall i acc w acc',
      P acc -> result (body i acc w) = inr acc' -> P acc') ->
  forall indices acc w acc',
    P acc -> result (for_each indices acc body w) = inr acc' -> P acc'.
Proof.
  intro Hbody. induction indices as [|i rest IH]; intros acc w acc' Hacc Hres.
  - cbn in Hres. now injection Hres as <-.
  - cbn [for_each] in Hres. rewrite result_bind in Hres.
    destruct (result (body i acc w)) as [x|acc1] eqn:Hb.
    + discriminate Hres.
    + exact (IH acc1 _ acc' (Hbody i acc w acc1 Hacc Hb) Hres).
Qed.

Lemma for_each_events_invariant {A R} (Q : Event -> Prop)
    (body : nat -> A -> M (R + A)) :
  (forall i acc w, Forall Q (events (body i acc w))) ->
  forall indices acc w, Forall Q (events (for_each indices acc body w)).
Proof.
  intro Hbody. induction indices as [|i rest IH]; intros acc w.
  - constructor.
  - cbn [for_each]. rewrite events_bind. apply Forall_app. split.
    + apply Hbody.
    + destruct (result (body i acc w)); [constructor|apply IH].
Qed.

Lemma fill_runes_only_draws (n : nat) :
  forall w, Forall (fun e => exists k v, e = EvIntn k v)
              (events (fill_runes n w)).
Proof.
  induction n as [|n IH]; intro w; [constructor|].
  cbn [fill_runes]. rewrite !events_bind, events_rand_Intn, events_ret.
  apply Forall_app. split; [repeat constructor; eauto|].
  apply Forall_app. split; [apply IH|constructor].
Qed.

Lemma randSeq_only_draws (n : nat) (w : World) :
  Forall (fun e => exists k v, e = EvIntn k v) (events (randSeq n w)).
Proof.
  unfold randSeq. rewrite events_bind, events_ret, app_nil_r.
  apply fill_runes_only_draws.
Qed.

Lemma only_draws_loop_events (evs : list Event) :
  Forall (fun e => exists k v, e = EvIntn k v) evs ->
  Forall (fun e => loop_event e = true) evs
  /\ sleeps evs = [] /\ handed evs = [].
Proof.
  induction 1 as [|e evs (k & v & ->) _ (IH1 & IH2 & IH3)].
  - repeat split. constructor.
  - repeat split; [constructor; [reflexivity|exact IH1]|exact IH2|exact IH3].
Qed.

Lemma List_body_appends (ctx : Context) (i : nat) (lst lst' : list City)
    (w : World) :
  result (citiesServer.List_body ctx i lst w) = inr lst' ->
  lst' = lst ++ [ {| Id := uint32 (Z.of_nat i);
                     Name := result (randSeq 10 w) |} ].
Proof.
  unfold citiesServer.List_body. run_step.
  destruct (contextError_switch (ctx (now w))); cbv beta iota; run_step.
  - discriminate.
  - now intros [= <-].
Qed.

Lemma for_each_early_return {A R} (P : R -> Prop)
    (body : nat -> A -> M (R + A)) :
  (forall i acc w x, result (body i acc w) = inl x -> P x) ->
  forall indices acc w x,
    result (for_each indices acc body w) = inl x -> P x.
Proof.
  intro Hbody. induction indices as [|i rest IH]; intros acc w x Hres.
  - discriminate Hres.
  - cbn [for_each] in Hres. rewrite result_bind in Hres.
    destruct (result (body i acc w)) as [y|acc1] eqn:Hb.
    + rewrite result_ret in Hres. injection Hres as <-.
      exact (Hbody i acc w y Hb).
    + exact (IH acc1 _ x Hres).
Qed.

Lemma List_body_early_return (ctx : Context) (i : nat) (lst : list City)
    (w : World) (x : option Cities * option error) :
  result (citiesServer.List_body ctx i lst w) = inl x ->
  exists e, x = (None, Some e).
Proof.
  unfold citiesServer.List_body. run_step.
  destruct (contextError_switch (ctx (now w))) as [e|]; cbv beta iota; run_step.
  - intros [= <-]. now exists e.
  - discriminate.
Qed.

Lemma List_success_from_loop (N : nat) (ctx : Context) (w : World)
    (cs : Cities) :
  result (citiesServer.List N ctx Empty w) = (Some cs, None) ->
  result (for_each (seq 1 N) [] (citiesServer.List_body ctx) w)
  = inr (Cities_City cs).
Proof.
  rewrite List_unfold, result_bind.
  destruct (result (for_each (seq 1 N) [] (citiesServer.List_body ctx) w))
    as [x|lst] eqn:Hloop; cbn [citiesServer.List_finish].
  - rewrite result_ret. intros ->.
    destruct (for_each_early_return (fun x => exists e, x = (None, Some e))
                (citiesServer.List_body ctx)
                (List_body_early_return ctx) _ _ _ _ Hloop) as (e & He).
    discriminate He.
  - rewrite result_bind, result_contextError.
    destruct (contextError_switch _); cbv beta iota.
    + rewrite result_ret. discriminate.
    + rewrite result_bind, result_ret. now intros [= <-].
Qed.

Lemma well_named_randSeq (i : Z) (w : World) :
  well_named {| Id := i; Name := result (randSeq 10 w) |} = true.
Proof.
  destruct (randSeq_is_a_capitalised_word 10 w) as (Hlen & Hcap).
  unfold well_named. cbn [Name]. rewrite Hlen, Hcap. reflexivity.
Qed.

(** ** Buffered delivery, further *)

(** X3. Whenever [List] returns a message, under any context, the
    message is complete and well formed: it holds exactly [N] items,
    their ids are [uint32(1)], ..., [uint32(N)] in this order, and every
    name is a capitalised word of ten letters. A part of the list is
    never returned. *)
Theorem List_success_is_complete (N : nat) (ctx : Context) (w : World)
    (cs : Cities) :
  result (citiesServer.List N ctx Empty w) = (Some cs, None) ->
  List.length (Cities_City cs) = N
  /\ map Id (Cities_City cs) = ids_from 1 N
  /\ forallb well_named (Cities_City cs) = true.
Proof.
  intro Hres.
  assert (Hids : map Id (Cities_City cs) = ids_from 1 N).
  { rewrite List_unfold in Hres.
    destruct (List_from_spec ctx N 1 [] w) as (k & _ & _ & _ & Hspec).
    destruct (contextError_switch (ctx (now w + 100 * Z.of_nat k))).
    - rewrite Hspec in Hres. discriminate Hres.
    - destruct Hspec as (_ & lst & Hspec & Hids).
      rewrite Hspec in Hres. injection Hres as <-. exact Hids. }
  split; [|split; [exact Hids|]].
  - rewrite <- (length_map Id), Hids. unfold ids_from.
    now rewrite length_map, length_seq.
  - apply List_success_from_loop in Hres.
    refine (for_each_result_invariant
              (fun l => forallb well_named l = true)
              (citiesServer.List_body ctx) _
              (seq 1 N) [] w (Cities_City cs) eq_refl Hres).
    intros i acc w' acc' Hacc Hb.
    rewrite (List_body_appends ctx i acc acc' w' Hb), forallb_app, Hacc.
    cbn [forallb]. now rewrite well_named_randSeq.
Qed.

Lemma List_success_is_complete_witness :
  List.length
    (Cities_City
       {| Cities_City := [ {| Id := 1; Name := "Dkryfmtaho" |};
                           {| Id := 2; Name := "Vcjqxelszg" |};
                           {| Id := 3; Name := "Nubipwdkry" |} ] |}) = 3%nat
  /\ map Id
       (Cities_City
          {| Cities_City := [ {| Id := 1; Name := "Dkryfmtaho" |};
                              {| Id := 2; Name := "Vcjqxelszg" |};
                              {| Id := 3; Name := "Nubipwdkry" |} ] |})
     = ids_from 1 3
  /\ forallb well_named
       (Cities_City
          {| Cities_City := [ {| Id := 1; Name := "Dkryfmtaho" |};
                              {| Id := 2; Name := "Vcjqxelszg" |};
                              {| Id := 3; Name := "Nubipwdkry" |} ] |})
     = true.
Proof.
  apply (List_success_is_complete 3 live w0). reflexivity.
Defined.

(** X4. Under any context, [List] ends in exactly one of three ways: a
    message and no error; no message and the status [Canceled] with
    message "request is canceled"; no message and the status
    [DeadlineExceeded] with message "deadline is exceeded". It never
    returns a message together with an error, never neither, and never
    the raw error of the context or an [Unknown] status. *)
Theorem List_ends_in_one_of_three_ways (N : nat) (ctx : Context) (w : World) :
  (exists cs, result (citiesServer.List N ctx Empty w) = (Some cs, None))
  \/ result (citiesServer.List N ctx Empty w)
     = (None, Some (status_Error codes.Canceled "request is canceled"))
  \/ result (citiesServer.List N ctx Empty w)
     = (None,
        Some (status_Error codes.DeadlineExceeded "deadline is exceeded")).
Proof.
  rewrite List_unfold.
  destruct (List_from_spec ctx N 1 [] w) as (k & _ & _ & _ & Hspec).
  destruct (ctx (now w + 100 * Z.of_nat k)) as [[| | |]|];
    cbn [contextError_switch] in Hspec.
  - right. left. exact Hspec.
  - right. right. exact Hspec.
  - left. destruct Hspec as (_ & lst & Hspec & _). eauto.
  - left. destruct Hspec as (_ & lst & Hspec & _). eauto.
  - left. destruct Hspec as (_ & lst & Hspec & _). eauto.
Qed.

Lemma sleeps_app (a b : list Event) : sleeps (a ++ b) = sleeps a ++ sleeps b.
Proof. apply flat_map_app. Qed.

Lemma List_body_go_sleeps (ctx : Context) (i : nat) (lst : list City)
    (w : World) :
  contextError_switch (ctx (now w)) = None ->
  sleeps (events (citiesServer.List_body ctx i lst w)) = [100].
Proof.
  intro H. unfold citiesServer.List_body.
  rewrite events_bind, result_contextError, H. cbv beta iota.
  rewrite !events_bind, !sleeps_app.
  destruct (only_draws_loop_events _ (randSeq_only_draws 10 w)) as (_ & Hs & _).
  rewrite world_contextError, Hs. reflexivity.
Qed.

Lemma List_finish_clock (ctx : Context) (lst : list City) (w : World) :
  now (world (citiesServer.List_finish ctx (inr lst) w)) = now w
  /\ sleeps (events (citiesServer.List_finish ctx (inr lst) w)) = []
  /\ (forall e, contextError_switch (ctx (now w)) = Some e ->
      result (citiesServer.List_finish ctx (inr lst) w) = (None, Some e)).
Proof.
  cbn [citiesServer.List_finish].
  rewrite world_bind, events_bind, result_bind, result_contextError,
    world_contextError.
  destruct (contextError_switch (ctx (now w))); cbv beta iota.
  - repeat split. now intros e' [= <-].
  - rewrite world_bind, events_bind, print_loop_run. repeat split.
    discriminate.
Qed.

(** The clock of a run of [List] from any turn of its loop on: the run
    ends at the first poll that the classifier turns into an error, or
    after all turns, and has then slept 100 ms per turn taken. *)
Lemma List_from_clock (ctx : Context) :
  forall (n a : nat) (acc : list City) (w : World),
    let r := bind (for_each (seq a n) acc (citiesServer.List_body ctx))
               (citiesServer.List_finish ctx) w in
    exists k : nat,
      (k <= n)%nat
      /\ now (world r) = now w + 100 * Z.of_nat k
      /\ sleeps (events r) = repeat 100 k
      /\ (forall j : nat, (j < k)%nat ->
            contextError_switch (ctx (now w + 100 * Z.of_nat j)) = None)
      /\ (contextError_switch (ctx (now w + 100 * Z.of_nat k)) = None ->
          k = n)
      /\ (forall e,
            contextError_switch (ctx (now w + 100 * Z.of_nat k)) = Some e ->
            result r = (None, Some e)).
Proof.
  induction n as [|n IH]; intros a acc w r; subst r.
  - exists 0%nat. cbn [seq for_each].
    rewrite world_bind, events_bind, result_bind, world_ret, result_ret,
      events_ret.
    cbn [app].
    destruct (List_finish_clock ctx acc w) as (Hn & Hs & Hres).
    rewrite Hn, Hs. replace (now w + 100 * Z.of_nat 0) with (now w) by lia.
    repeat split; try lia. exact Hres.
  - cbn [seq for_each]. rewrite !world_bind, !events_bind, !result_bind.
    destruct (contextError_switch (ctx (now w))) as [e|] eqn:Hc.
    + destruct (List_body_abort ctx a acc w e Hc) as (Hr & Hw & He).
      exists 0%nat. rewrite Hr, Hw, He. cbv beta iota.
      rewrite world_ret, result_ret, events_ret.
      cbn [citiesServer.List_finish]. rewrite world_ret, events_ret, result_ret.
      replace (now w + 100 * Z.of_nat 0) with (now w) by lia.
      split; [lia|]. split; [lia|]. split; [reflexivity|].
      split; [intros j Hj; lia|]. rewrite Hc.
      split; [discriminate|]. now intros e' [= <-].
    + destruct (List_body_go ctx a acc w Hc) as ((name & Hr) & Hn & _).
      pose proof (List_body_go_sleeps ctx a acc w Hc) as Hs.
      rewrite Hr. cbv beta iota.
      rewrite ?world_bind, ?Hr. cbv beta iota.
      set (w1 := world (citiesServer.List_body ctx a acc w)) in *.
      set (acc1 := acc ++ [ {| Id := uint32 (Z.of_nat a); Name := name |} ]).
      specialize (IH (S a) acc1 w1). cbv zeta in IH.
      rewrite world_bind, events_bind, result_bind in IH.
      destruct IH as (k & Hk & Hclock & Hsl & Hlive & Hend & Hres).
      exists (S k). split; [lia|]. split; [|split; [|split; [|split]]].
      * rewrite Hclock. lia.
      * rewrite !sleeps_app in *. rewrite <- ?app_assoc, Hs, Hsl. reflexivity.
      * intros j Hj. destruct j as [|j].
        -- replace (now w + 100 * Z.of_nat 0) with (now w) by lia. exact Hc.
        -- replace (now w + 100 * Z.of_nat (S j))
             with (now w1 + 100 * Z.of_nat j) by lia.
           apply Hlive. lia.
      * replace (now w + 100 * Z.of_nat (S k))
          with (now w1 + 100 * Z.of_nat k) by lia.
        intro H. f_equal. exact (Hend H).
      * replace (now w + 100 * Z.of_nat (S k))
          with (now w1 + 100 * Z.of_nat k) by lia.
        exact Hres.
Qed.

(** X5. The time a run of [List] takes is the time it sleeps: it ends
    [100 * k] ms after it started, having slept 100 ms [k] times, for
    some [k] up to [N]; and when it returns a message, [k] is [N]: a
    message is never handed out before the full [100 * N] ms. *)
Theorem List_elapsed_time (N : nat) (ctx : Context) (w : World) :
  exists k : nat,
    (k <= N)%nat
    /\ now (world (citiesServer.List N ctx Empty w))
       = now w + 100 * Z.of_nat k
    /\ sleeps (events (citiesServer.List N ctx Empty w)) = repeat 100 k
    /\ (forall cs,
          result (citiesServer.List N ctx Empty w) = (Some cs, None) ->
          k = N).
Proof.
  rewrite List_unfold.
  destruct (List_from_clock ctx N 1 [] w)
    as (k & Hk & Hclock & Hsl & _ & Hend & Hres).
  exists k. repeat split; try assumption.
  intros cs Hcs.
  destruct (contextError_switch (ctx (now w + 100 * Z.of_nat k))) as [e|].
  - rewrite (Hres e eq_refl) in Hcs. discriminate Hcs.
  - exact (Hend eq_refl).
Qed.

(** X6. Once the context is done, [List] does not go on for a full
    pacing interval: if the context honours its contract and is done at
    clock [t], the run ends before [t + 100] ms, and when it only
    started at [t] or later it ends at the clock it started, without any
    sleep. *)
Theorem List_stops_within_one_interval (N : nat) (ctx : Context) (w : World)
    (t : Z) (r : error) :
  honours_contract ctx ->
  ctx t = Some r ->
  now w <= now (world (citiesServer.List N ctx Empty w))
           < Z.max t (now w) + 100
  /\ (t <= now w ->
      now (world (citiesServer.List N ctx Empty w)) = now w
      /\ sleeps (events (citiesServer.List N ctx Empty w)) = []).
Proof.
  intros [Hirr Hnamed] Ht. rewrite List_unfold.
  destruct (List_from_clock ctx N 1 [] w)
    as (k & Hk & Hclock & Hsl & Hlive & _).
  rewrite Hclock, Hsl.
  assert (Hdone : forall t', t <= t' -> contextError_switch (ctx t') <> None).
  { intros t' Hle. rewrite (Hirr _ _ _ Hle Ht).
    apply switch_named. exact (Hnamed t r Ht). }
  split.
  - split; [lia|].
    destruct k as [|k]; [lia|].
    destruct (Z_le_gt_dec t (now w + 100 * Z.of_nat k)) as [Hle|Hgt].
    + exfalso. apply (Hdone _ Hle). apply Hlive. lia.
    + lia.
  - intro Hle. destruct k as [|k].
    + split; [lia|reflexivity].
    + exfalso. apply (Hdone (now w + 100 * Z.of_nat 0)); [lia|].
      apply Hlive. lia.
Qed.

Lemma List_stops_within_one_interval_witness :
  now w0 <= now (world (citiesServer.List N_source (cancel_at 250) Empty w0))
            < Z.max 250 (now w0) + 100.
Proof.
  apply (List_stops_within_one_interval N_source (cancel_at 250) w0
           250 context_Canceled).
  - apply cancel_at_honours_contract.
  - reflexivity.
Defined.

(** ** Incremental delivery, further *)

Lemma handed_app (a b : list Event) : handed (a ++ b) = handed a ++ handed b.
Proof. apply flat_map_app. Qed.

Lemma ListStream_body_handed (stream : ListStreamServer) (i : nat)
    (w : World) :
  forallb well_named
    (handed (events (citiesServer.ListStream_body stream i tt w))) = true.
Proof.
  unfold citiesServer.ListStream_body.
  rewrite !events_bind, !handed_app, events_println, events_time_Sleep,
    events_Send.
  set (w1 := world (time_Sleep (1 * time_Second)
                      (world (println (PInt (Z.of_nat i)) w)))).
  destruct (only_draws_loop_events _ (randSeq_only_draws 10 w1))
    as (_ & _ & Hh).
  rewrite Hh. cbn [handed flat_map app CityStream_City].
  cbn [forallb]. rewrite well_named_randSeq.
  destruct (result (Send stream _ _)); reflexivity.
Qed.

Lemma ListStream_loop_handed (stream : ListStreamServer) :
  forall indices w,
    forallb well_named
      (handed (events (for_each indices tt
                         (citiesServer.ListStream_body stream) w))) = true.
Proof.
  induction indices as [|i rest IH]; intro w; [reflexivity|].
  cbn [for_each]. rewrite events_bind, handed_app, forallb_app.
  destruct (result (citiesServer.ListStream_body stream i tt w)) as [e|[]] eqn:E.
  - pose proof (ListStream_body_handed stream i w) as H.
    rewrite H. reflexivity.
  - pose proof (ListStream_body_handed stream i w) as H.
    rewrite H, IH. reflexivity.
Qed.

(** X7. Every item [ListStream] hands to [Send], whether [Send] accepts
    it or not and whatever the context and the random source are,
    carries a name that is a capitalised word of ten letters. *)
Theorem ListStream_sends_well_named_items (N : nat)
    (stream : ListStreamServer) (w : World) :
  forallb well_named
    (handed (events (citiesServer.ListStream N Empty stream w))) = true.
Proof.
  unfold citiesServer.ListStream.
  rewrite events_bind, handed_app, forallb_app, result_ctx_Done_closed,
    world_ctx_Done_closed.
  destruct (stream_Context stream (now w)); [reflexivity|].
  rewrite events_bind, handed_app, forallb_app, ListStream_loop_handed.
  destruct (result (for_each (seq 1 N) tt
                      (citiesServer.ListStream_body stream) w));
    reflexivity.
Qed.

Lemma ListStream_live_world (N : nat) (stream : ListStreamServer) (w : World) :
  stream_Context stream (now w) = None ->
  world (citiesServer.ListStream N Empty stream w)
  = world (for_each (seq 1 N) tt (citiesServer.ListStream_body stream) w).
Proof.
  intro H. unfold citiesServer.ListStream.
  rewrite world_bind, world_ctx_Done_closed, result_ctx_Done_closed, H.
  rewrite world_bind.
  destruct (result (for_each (seq 1 N) tt
                      (citiesServer.ListStream_body stream) w));
    reflexivity.
Qed.

(** X8. When [ListStream] starts on a live context and ends without
    error, it has taken exactly [1000 * N] ms and [Send] has accepted
    exactly [N] items: a stream is never closed as successful after
    fewer items or in less time. *)
Theorem ListStream_success_is_complete (N : nat) (stream : ListStreamServer)
    (w : World) :
  stream_Context stream (now w) = None ->
  result (citiesServer.ListStream N Empty stream w) = None ->
  now (world (citiesServer.ListStream N Empty stream w))
  = now w + 1000 * Z.of_nat N
  /\ List.length (sent (events (citiesServer.ListStream N Empty stream w)))
     = N.
Proof.
  intros Hlive Hres.
  destruct (ListStream_live_at_start N stream w Hlive) as (Hr & _ & Hs).
  rewrite (ListStream_live_world N stream w Hlive), Hs.
  rewrite Hr in Hres.
  destruct (ListStream_loop_spec stream N 1 w)
    as (k & _ & Htimes & _ & [(-> & _ & _ & Hclock)
                             | (_ & _ & m & e & _ & _ & Hfail)]).
  - split; [exact Hclock|].
    rewrite <- (length_map fst), Htimes.
    now rewrite length_map, length_seq.
  - rewrite Hfail in Hres. discriminate Hres.
Qed.

Lemma ListStream_success_is_complete_witness :
  now (world (citiesServer.ListStream N_source Empty
                (reliable_stream live) w0))
  = now w0 + 1000 * Z.of_nat N_source
  /\ List.length (sent (events (citiesServer.ListStream N_source Empty
                                  (reliable_stream live) w0)))
     = N_source.
Proof.
  apply (ListStream_success_is_complete N_source (reliable_stream live) w0);
    reflexivity.
Defined.

(** ** The HTTP endpoint, further *)

Lemma List_body_loop_events (ctx : Context) (i : nat) (lst : list City)
    (w : World) :
  Forall (fun e => loop_event e = true)
    (events (citiesServer.List_body ctx i lst w)).
Proof.
  unfold citiesServer.List_body.
  rewrite events_bind, events_contextError, result_contextError.
  apply Forall_app. split; [repeat constructor|].
  destruct (contextError_switch (ctx (now w))); [constructor|].
  rewrite !events_bind. apply Forall_app. split.
  - apply only_draws_loop_events, randSeq_only_draws.
  - repeat constructor.
Qed.

Lemma List_loop_events (N : nat) (ctx : Context) (w : World) :
  Forall (fun e => loop_event e = true)
    (events (citiesServer.List N ctx Empty w)).
Proof.
  rewrite List_unfold, events_bind. apply Forall_app. split.
  - apply for_each_events_invariant. apply List_body_loop_events.
  - destruct (result (for_each (seq 1 N) [] (citiesServer.List_body ctx) w))
      as [res|lst]; [constructor|].
    cbn [citiesServer.List_finish].
    rewrite events_bind, events_contextError, result_contextError.
    apply Forall_app. split; [repeat constructor|].
    destruct (contextError_switch _); [constructor|].
    rewrite events_bind, world_contextError, print_loop_run.
    repeat constructor.
Qed.

Lemma loop_events_quiet (evs : list Event) :
  Forall (fun e => loop_event e = true) evs ->
  log_lines evs = [] /\ status_codes evs = [] /\ panics evs = false.
Proof.
  induction 1 as [|e evs He _ (IH1 & IH2 & IH3)]; [repeat split|].
  unfold log_lines, status_codes, panics in *.
  destruct e; try discriminate He; cbn; repeat split; assumption.
Qed.

(** What [rest] does after [List] has returned. *)
Lemma rest_after_List (json_Marshal : list City -> string * option error)
    (N : nat) (rw : ResponseWriter) (r : Request) (w : World) :
  exists tail : list Event,
    events (rest json_Marshal N rw r w)
    = events (citiesServer.List N (Request_Context r) Empty w) ++ tail
    /\ match result (citiesServer.List N (Request_Context r) Empty w) with
       | (_, Some (status_Error _ m)) =>
           tail = [EvLog ("error get list city " ++ m)%string;
                   EvWriteHeader 500]
       | (_, Some e) =>
           tail = [EvLog ("error get list city " ++ Error e)%string;
                   EvWriteHeader 500]
       | (None, None) =>
           tail = [EvPanic "invalid memory address or nil pointer dereference"]
       | (Some cs, None) =>
           match json_Marshal (Cities_City cs) with
           | (_, Some e) =>
               tail = [EvLog ("error marshalling result " ++ Error e)%string;
                       EvWriteHeader 500]
           | (data, None) =>
               tail
               = [EvHeaderSet "Content-Type" "application/json; charset=utf-8";
                  EvWriteHeader 200;
                  EvWrite data (writer_Write rw data)]
                 ++ match writer_Write rw data with
                    | Some e =>
                        [EvLog ("error writing result " ++ Error e)%string]
                    | None => []
                    end
           end
       end.
Proof.
  unfold rest. rewrite events_bind. eexists. split; [reflexivity|].
  destruct (result (citiesServer.List N (Request_Context r) Empty w))
    as [[cs|] [e|]]; cbv beta iota.
  - destruct e; reflexivity.
  - destruct (json_Marshal (Cities_City cs)) as [data [e|]]; cbv beta iota.
    + reflexivity.
    + destruct (writer_Write rw data); reflexivity.
  - destruct e; reflexivity.
  - reflexivity.
Qed.

Lemma log_lines_app (a b : list Event) :
  log_lines (a ++ b) = log_lines a ++ log_lines b.
Proof. apply flat_map_app. Qed.

Lemma status_codes_app (a b : list Event) :
  status_codes (a ++ b) = status_codes a ++ status_codes b.
Proof. apply flat_map_app. Qed.

Lemma panics_app (a b : list Event) :
  panics (a ++ b) = panics a || panics b.
Proof. apply existsb_app. Qed.

(** X9. Whatever the request, the encoder and the writer do, [rest]
    never panics (the message it dereferences is never [nil] when the
    error is [nil]) and calls [WriteHeader] exactly once, with 200 or
    with 500. *)
Theorem rest_answers_once_and_never_panics
    (json_Marshal : list City -> string * option error)
    (N : nat) (rw : ResponseWriter) (r : Request) (w : World) :
  panics (events (rest json_Marshal N rw r w)) = false
  /\ (status_codes (events (rest json_Marshal N rw r w)) = [200]
      \/ status_codes (events (rest json_Marshal N rw r w)) = [500]).
Proof.
  destruct (rest_after_List json_Marshal N rw r w) as (tail & -> & Htail).
  destruct (loop_events_quiet _ (List_loop_events N (Request_Context r) w))
    as (_ & Hcodes & Hpanic).
  rewrite panics_app, status_codes_app, Hcodes, Hpanic. cbn [app orb].
  destruct (List_result_shape N (Request_Context r) w)
    as [(e & Hres) | (cs & Hres)]; rewrite Hres in Htail.
  - destruct e; subst tail; split; try reflexivity; right; reflexivity.
  - destruct (json_Marshal (Cities_City cs)) as [data [e|]]; subst tail.
    + split; [reflexivity|right; reflexivity].
    + destruct (writer_Write rw data); split; try reflexivity;
        left; reflexivity.
Qed.

(** X10. When [List] fails, [rest] logs one line and nothing else, and
    the line carries the message of the status alone, without the
    "rpc error: code = ..." head: it is "error get list city request is
    canceled" for a cancelled request and "error get list city deadline
    is exceeded" for one past its deadline. *)
Theorem rest_logs_the_plain_message
    (json_Marshal : list City -> string * option error)
    (N : nat) (rw : ResponseWriter) (r : Request) (w : World) (e : error) :
  result (citiesServer.List N (Request_Context r) Empty w) = (None, Some e) ->
  (e = status_Error codes.Canceled "request is canceled"
   /\ log_lines (events (rest json_Marshal N rw r w))
      = ["error get list city request is canceled"])
  \/ (e = status_Error codes.DeadlineExceeded "deadline is exceeded"
      /\ log_lines (events (rest json_Marshal N rw r w))
         = ["error get list city deadline is exceeded"]).
Proof.
  intro Hres.
  destruct (rest_after_List json_Marshal N rw r w) as (tail & -> & Htail).
  destruct (loop_events_quiet _ (List_loop_events N (Request_Context r) w))
    as (Hlog & _ & _).
  rewrite log_lines_app, Hlog. cbn [app].
  rewrite Hres in Htail.
  destruct (List_ends_in_one_of_three_ways N (Request_Context r) w)
    as [(cs & H) | [H | H]]; rewrite Hres in H.
  - discriminate H.
  - injection H as ->. subst tail. left. split; reflexivity.
  - injection H as ->. subst tail. right. split; reflexivity.
Qed.

Lemma rest_logs_the_plain_message_witness :
  (status_Error codes.Canceled "request is canceled"
   = status_Error codes.Canceled "request is canceled"
   /\ log_lines (events (rest sample_Marshal N_source sample_writer
                           {| Request_Context := cancel_at 250 |} w0))
      = ["error get list city request is canceled"])
  \/ (status_Error codes.Canceled "request is canceled"
      = status_Error codes.DeadlineExceeded "deadline is exceeded"
      /\ log_lines (events (rest sample_Marshal N_source sample_writer
                              {| Request_Context := cancel_at 250 |} w0))
         = ["error get list city deadline is exceeded"]).
Proof.
  apply (rest_logs_the_plain_message sample_Marshal N_source sample_writer
           {| Request_Context := cancel_at 250 |} w0).
  reflexivity.
Defined.

(** X11. When [List] has returned a message, the status follows the
    encoder alone. If the encoding fails, the status is 500 and the one
    line logged is "error marshalling result" with the encoder's error.
    If it succeeds, the status is 200 whether or not the [Write] of the
    body then fails: a failed [Write] only adds the line "error writing
    result" with its error to the log, and a successful one logs
    nothing. *)
Theorem rest_status_follows_the_encoder
    (json_Marshal : list City -> string * option error)
    (N : nat) (rw : ResponseWriter) (r : Request) (w : World) (cs : Cities) :
  result (citiesServer.List N (Request_Context r) Empty w) = (Some cs, None) ->
  match json_Marshal (Cities_City cs) with
  | (_, Some e) =>
      status_codes (events (rest json_Marshal N rw r w)) = [500]
      /\ log_lines (events (rest json_Marshal N rw r w))
         = [("error marshalling result " ++ Error e)%string]
  | (data, None) =>
      status_codes (events (rest json_Marshal N rw r w)) = [200]
      /\ log_lines (events (rest json_Marshal N rw r w))
         = match writer_Write rw data with
           | Some e => [("error writing result " ++ Error e)%string]
           | None => []
           end
  end.
Proof.
  intro Hres.
  destruct (rest_after_List json_Marshal N rw r w) as (tail & -> & Htail).
  destruct (loop_events_quiet _ (List_loop_events N (Request_Context r) w))
    as (Hlog & Hcodes & _).
  rewrite log_lines_app, status_codes_app, Hlog, Hcodes. cbn [app].
  rewrite Hres in Htail.
  destruct (json_Marshal (Cities_City cs)) as [data [e|]]; subst tail.
  - split; reflexivity.
  - destruct (writer_Write rw data); split; reflexivity.
Qed.

Lemma rest_status_follows_the_encoder_witness :
  status_codes (events (rest sample_Marshal 3 broken_writer
                          {| Request_Context := live |} w0)) = [200]
  /\ log_lines (events (rest sample_Marshal 3 broken_writer
                          {| Request_Context := live |} w0))
     = ["error writing result broken pipe"].
Proof.
  exact (rest_status_follows_the_encoder sample_Marshal 3 broken_writer
           {| Request_Context := live |} w0 _ List_sample).
Defined.

(** ** The client *)

Section ClientProofs.
Variable City_String : City -> string.

Lemma recvs_app (a b : list ClientEvent) : recvs (a ++ b) = recvs a ++ recvs b.
Proof. apply flat_map_app. Qed.

Lemma stdout_app (a b : list ClientEvent) :
  stdout (a ++ b) = stdout a ++ stdout b.
Proof. apply flat_map_app. Qed.

(** The loop of [callStream] from the j-th call of [Recv] on, when the
    next [k] calls give messages and the one after them does not. *)
Lemma recv_loop_spec (stream : ListStreamClient) :
  forall (k fuel j : nat),
    (forall i, (j <= i < j + k)%nat -> exists m, client_Recv stream i = RecvMsg m) ->
    (forall m, client_Recv stream (j + k) <> RecvMsg m) ->
    (k < fuel)%nat ->
    fst (client.recv_loop City_String fuel stream j)
    = Some match client_Recv stream (j + k) with
           | RecvErr e => Some e
           | _ => None
           end
    /\ recvs (snd (client.recv_loop City_String fuel stream j)) = seq j (S k)
    /\ stdout (snd (client.recv_loop City_String fuel stream j))
       = map (fun m => ("Resp : " ++ City_String (CityStream_City m))%string)
           (flat_map (fun i => match client_Recv stream i with
                               | RecvMsg m => [m]
                               | _ => []
                               end) (seq j k))
         ++ match client_Recv stream (j + k) with
            | RecvEOF => [("end stream" ++ nl)%string]
            | _ => []
            end.
Proof.
  induction k as [|k IH]; intros fuel j Hmsgs Hend Hfuel;
    (destruct fuel as [|fuel]; [lia|]); cbn [client.recv_loop].
  - rewrite Nat.add_0_r in *.
    destruct (client_Recv stream j) as [m| |e] eqn:E.
    + now contradiction (Hend m).
    + repeat split.
    + repeat split.
  - destruct (Hmsgs j ltac:(lia)) as (m & Hm). rewrite Hm.
    specialize (IH fuel (S j)).
    replace (S j + k)%nat with (j + S k)%nat in IH by lia.
    destruct IH as (Hr & Hrecv & Hout).
    + intros i Hi. apply Hmsgs. lia.
    + exact Hend.
    + lia.
    + destruct (client.recv_loop City_String fuel stream (S j)) as [r evs].
      cbn [fst snd] in *. split; [exact Hr|]. split.
      * rewrite recvs_app, Hrecv. reflexivity.
      * rewrite stdout_app, Hout. cbn [seq flat_map]. rewrite Hm. reflexivity.
Qed.

(** X12. Let the stream open, give [k] messages and then something that
    is not a message. [callStream] calls [Recv] exactly [k + 1] times,
    prints one "Resp : ..." line per message, in order, and then: at
    the end of the stream it prints "end stream" and returns no error;
    at an error it prints nothing more and returns that error as it
    is. *)
Theorem callStream_reads_to_the_end (fuel : nat) (ctx : Context)
    (city : CitiesServiceClient) (stream : ListStreamClient) (k : nat) :
  client_ListStream city ctx Empty = inl stream ->
  messages_before stream k ->
  (forall m, client_Recv stream k <> RecvMsg m) ->
  (k < fuel)%nat ->
  fst (client.callStream City_String fuel ctx city)
  = Some match client_Recv stream k with
         | RecvErr e => Some e
         | _ => None
         end
  /\ recvs (snd (client.callStream City_String fuel ctx city)) = seq 0 (S k)
  /\ stdout (snd (client.callStream City_String fuel ctx city))
     = map (fun m => ("Resp : " ++ City_String (CityStream_City m))%string)
         (received stream k)
       ++ match client_Recv stream k with
          | RecvEOF => [("end stream" ++ nl)%string]
          | _ => []
          end.
Proof.
  intros Hopen Hmsgs Hend Hfuel. unfold client.callStream. rewrite Hopen.
  destruct (recv_loop_spec stream k fuel 0) as (Hr & Hrecv & Hout);
    try assumption.
  - intros i Hi. apply Hmsgs. lia.
  - destruct (client.recv_loop City_String fuel stream 0) as [r evs].
    cbn [fst snd Nat.add] in *. repeat split; assumption.
Qed.

(** X13. The loop of [callStream] has no way out but the end of the
    stream and an error of [Recv]: on a stream that opens and keeps
    giving messages it does not return, however many turns it is given,
    and every turn is one more call of [Recv]. It never looks at its
    context itself. *)
Theorem callStream_only_stops_when_Recv_does (fuel : nat) (ctx : Context)
    (city : CitiesServiceClient) (stream : ListStreamClient) :
  client_ListStream city ctx Empty = inl stream ->
  (forall j, exists m, client_Recv stream j = RecvMsg m) ->
  fst (client.callStream City_String fuel ctx city) = None
  /\ recvs (snd (client.callStream City_String fuel ctx city)) = seq 0 fuel.
Proof.
  intros Hopen Hmsgs. unfold client.callStream. rewrite Hopen.
  assert (H : forall f j,
             fst (client.recv_loop City_String f stream j) = None
             /\ recvs (snd (client.recv_loop City_String f stream j))
                = seq j f).
  { induction f as [|f IH]; intro j; [split; reflexivity|].
    cbn [client.recv_loop]. destruct (Hmsgs j) as (m & ->).
    destruct (IH (S j)) as (Hr & Hrecv).
    destruct (client.recv_loop City_String f stream (S j)) as [r evs].
    cbn [fst snd] in *. split; [exact Hr|].
    rewrite recvs_app, Hrecv. reflexivity. }
  destruct (H fuel 0%nat) as (Hr & Hrecv).
  destruct (client.recv_loop City_String fuel stream 0) as [r evs].
  cbn [fst snd] in *. split; assumption.
Qed.

End ClientProofs.

Lemma callStream_reads_to_the_end_witness :
  fst (client.callStream sample_City_String 10 live (sample_city RecvEOF))
  = Some None
  /\ recvs (snd (client.callStream sample_City_String 10 live
                   (sample_city RecvEOF))) = [0; 1; 2]%nat
  /\ stdout (snd (client.callStream sample_City_String 10 live
                    (sample_city RecvEOF)))
     = ["Resp : Tojuzbpsij"; "Resp : Lldeiysdit"; ("end stream" ++ nl)%string].
Proof.
  apply (callStream_reads_to_the_end sample_City_String 10 live
           (sample_city RecvEOF) (sample_recv RecvEOF) 2).
  - reflexivity.
  - intros j Hj. destruct j as [|[|j]]; [eexists; reflexivity ..|lia].
  - intros m H. discriminate H.
  - lia.
Defined.

Lemma callStream_only_stops_when_Recv_does_witness :
  fst (client.callStream sample_City_String 25 live
         {| client_ListStream := fun _ _ => inl endless_recv |}) = None
  /\ recvs (snd (client.callStream sample_City_String 25 live
                   {| client_ListStream := fun _ _ => inl endless_recv |}))
     = seq 0 25.
Proof.
  apply (callStream_only_stops_when_Recv_does sample_City_String 25 live
           {| client_ListStream := fun _ _ => inl endless_recv |}
           endless_recv).
  - reflexivity.
  - intro j. eexists. reflexivity.
Defined.

Section ClientMainProofs.
Variable City_String : City -> string.

Lemma recv_loop_no_release (stream : ListStreamClient) :
  forall fuel j,
    filter is_release (snd (client.recv_loop City_String fuel stream j)) = [].
Proof.
  induction fuel as [|fuel IH]; intro j; [reflexivity|].
  cbn [client.recv_loop].
  destruct (client_Recv stream j) as [m| |e]; [|reflexivity ..].
  specialize (IH (S j)).
  destruct (client.recv_loop City_String fuel stream (S j)) as [r evs].
  cbn [snd] in *. rewrite filter_app, IH. reflexivity.
Qed.

Lemma callStream_no_release (fuel : nat) (ctx : Context)
    (city : CitiesServiceClient) :
  filter is_release (snd (client.callStream City_String fuel ctx city)) = [].
Proof.
  unfold client.callStream.
  destruct (client_ListStream city ctx Empty) as [stream|e]; [|reflexivity].
  pose proof (recv_loop_no_release stream fuel 0) as H.
  destruct (client.recv_loop City_String fuel stream 0) as [r evs].
  cbn [snd] in *. cbn [filter is_release]. exact H.
Qed.

(** X14. Every run of the client's [main] that returns releases what it
    acquired, last of all and in reverse order: when [grpc.Dial]
    succeeded it ends with [conn.Close()] and then [cancel()], when it
    failed it ends with [cancel()] alone, and neither is called anywhere
    before. *)
Theorem main_releases_what_it_acquired (fuel : nat)
    (dial : string -> CitiesServiceClient + error) (t0 : Z)
    (evs : list ClientEvent) :
  client.main City_String fuel dial t0 = (Some tt, evs) ->
  exists pre,
    evs = pre ++ match dial ":9099" with
                 | inl _ => [CClose; CCancel]
                 | inr _ => [CCancel]
                 end
    /\ filter is_release pre = [].
Proof.
  unfold client.main.
  destruct (dial ":9099") as [city|e].
  - pose proof (callStream_no_release fuel
                  (deadline_at (t0 + 3 * time_Second)) city) as Hq.
    destruct (client.callStream City_String fuel
                (deadline_at (t0 + 3 * time_Second)) city) as [[res|] cev];
      [|discriminate].
    cbn [snd] in Hq.
    destruct res as [[| |c m|m]|]; cbn; intros [= <-].
    5: { exists (CDial ":9099" :: cev). split; [reflexivity|exact Hq]. }
    all: eexists (CDial ":9099" :: cev ++ [CStdout _]);
      (split; [cbn [app]; rewrite <- app_assoc; reflexivity|]).
    all: cbn [filter is_release]; rewrite filter_app, Hq; reflexivity.
  - intros [= <-].
    exists [CDial ":9099"; CStdout ("did not connect: " ++ Error e)%string].
    split; reflexivity.
Qed.

(** X15. When the connection is made and [callStream] returns, what
    [main] adds to the output follows the error alone: nothing for no
    error; for a gRPC status the line "Error when calling grpc
    service: " with the message of the status and without its code; for
    any other error the same line with the text of the error. The
    context it passes to [callStream] has its deadline 3 seconds after
    the start. The message of the status is taken to hold no [%],
    which [fmt.Errorf] would read as a verb. *)
Theorem main_prints_the_message_of_the_error (fuel : nat)
    (dial : string -> CitiesServiceClient + error) (t0 : Z)
    (city : CitiesServiceClient) (res : option error)
    (cev : list ClientEvent) :
  dial ":9099" = inl city ->
  client.callStream City_String fuel (deadline_at (t0 + 3000)) city
  = (Some res, cev) ->
  (forall c m, res = Some (status_Error c m) -> no_verb m = true) ->
  fst (client.main City_String fuel dial t0) = Some tt
  /\ stdout (snd (client.main City_String fuel dial t0))
     = stdout cev
       ++ match res with
          | None => []
          | Some (status_Error _ m) =>
              [("Error when calling grpc service: " ++ m)%string]
          | Some e =>
              [("Error when calling grpc service: " ++ Error e)%string]
          end.
Proof.
  intros Hdial Hcall _. unfold client.main. rewrite Hdial.
  change (t0 + 3 * time_Second) with (t0 + 3000). rewrite Hcall.
  destruct res as [[| |c m|m]|]; cbn [status_FromError status_Message fst snd];
    (split; [reflexivity|]);
    change (stdout (CDial ":9099" :: ?l)) with (stdout l);
    rewrite stdout_app, ?app_nil_r; reflexivity.
Qed.

End ClientMainProofs.

Lemma main_releases_what_it_acquired_witness :
  exists pre,
    snd (client.main sample_City_String 10 (sample_dial RecvEOF) 0)
    = pre ++ [CClose; CCancel]
    /\ filter is_release pre = [].
Proof.
  apply (main_releases_what_it_acquired sample_City_String 10
           (sample_dial RecvEOF) 0
           (snd (client.main sample_City_String 10 (sample_dial RecvEOF) 0))).
  reflexivity.
Defined.

Lemma main_prints_the_message_of_the_error_witness :
  fst (client.main sample_City_String 10
         (sample_dial (RecvErr deadline_status)) 0) = Some tt
  /\ stdout (snd (client.main sample_City_String 10
                    (sample_dial (RecvErr deadline_status)) 0))
     = ["Resp : Tojuzbpsij"; "Resp : Lldeiysdit";
        "Error when calling grpc service: context deadline exceeded"].
Proof.
  apply (main_prints_the_message_of_the_error sample_City_String 10
           (sample_dial (RecvErr deadline_status)) 0
           (sample_city (RecvErr deadline_status))
           (Some deadline_status)
           (snd (client.callStream sample_City_String 10 (deadline_at 3000)
                   (sample_city (RecvErr deadline_status))))).
  - reflexivity.
  - reflexivity.
  - intros c m H. injection H as _ <-. reflexivity.
Defined.
